(** * hoggy-train-sounds-and-lights: the arbitration loop and its sound
      sub-machines

    A shallow embedding of [hoggy-train-sounds-and-lights.ino]: the sketch's
    global variables become one [State] record, every function of the sketch
    becomes a function on states, and the three libraries the sketch drives
    (Mozzi, Talkie, Adafruit NeoPixel) are reduced to what the sketch can
    observe of them.  What the sketch cannot decide itself -- when Mozzi's
    [kDelay] expires and what [random()] returns -- is an [Input] of each
    pass through [loop].

    Reading an array outside its bounds and dividing by zero are undefined
    in C++; the functions that could do either return [option State], and
    [None] stands for the undefined run.

    Left out, as nothing the sketch decides depends on them: the
    oscillators apart from the frequency of [aSin], the envelope
    generator, [updateAudio] (which only reads the state), the phase jumps
    of the noise table, Talkie's queue and its waits, and the pins. *)

From Stdlib Require Import ZArith List Bool Lia.
Import ListNotations.
Local Open Scope Z_scope.

(** ** Machine integers of the ATmega328P

    [int] is 16 bits wide, [unsigned long] 32 bits; results of arithmetic are
    brought back into range where the sketch stores them. *)

Definition int16 (z : Z) : Z := (z + 32768) mod 65536 - 32768.
Definition uint16 (z : Z) : Z := z mod 65536.
Definition uint32 (z : Z) : Z := z mod 4294967296.
Definition uint8 (z : Z) : Z := z mod 256.

(** [a / b] on [int]: truncates towards zero, undefined for [b = 0]. *)
Definition cdiv (a b : Z) : option Z :=
  if b =? 0 then None else Some (int16 (Z.quot a b)).

(** [a[i]] on a global array. *)
Definition aget (a : list Z) (i : Z) : option Z :=
  if i <? 0 then None else nth_error a (Z.to_nat i).

(** A small error monad for the functions that can run into undefined
    behaviour. *)
Definition bind {A B : Type} (m : option A) (f : A -> option B) : option B :=
  match m with
  | Some a => f a
  | None => None
  end.

Notation "x <- m ;; k" := (bind m (fun x => k))
  (at level 61, m at next level, right associativity).

(** ** Constants *)

Definition LED_COUNT : Z := 3.

Definition MOZZI_CHUFF : Z := 1.
Definition MOZZI_NOTE : Z := 2.
Definition MOZZI_WHISTLE : Z := 3.

Definition CHUFF_DELAY : Z := 1100.
Definition NUM_CHUFFS : Z := 15.
Definition FLICKERS_PER_SOUND : Z := 300.

Definition NOTE_A4 : Z := 440.
Definition NOTE_AS4 : Z := 466.
Definition NOTE_B4 : Z := 494.
Definition NOTE_C5 : Z := 523.
Definition NOTE_D5 : Z := 587.
Definition NOTE_DS5 : Z := 622.
Definition NOTE_E5 : Z := 659.
Definition NOTE_F5 : Z := 698.
Definition NOTE_FS5 : Z := 740.
Definition NOTE_G5 : Z := 784.
Definition NOTE_GS5 : Z := 831.
Definition NOTE_A5 : Z := 880.
Definition NOTE_AS5 : Z := 932.
Definition NOTE_B5 : Z := 988.
Definition NOTE_C6 : Z := 1047.
Definition NOTE_CS6 : Z := 1109.
Definition NOTE_D6 : Z := 1175.
Definition NOTE_DS6 : Z := 1245.
Definition NOTE_E6 : Z := 1319.
Definition NOTE_F6 : Z := 1397.

Definition WHISTLE_INITIAL : Z := 0.
Definition WHISTLE_TRITONE : Z := 1.
Definition WHISTLE_FADE : Z := 2.
Definition WHISTLE_DUD : Z := 3.

Definition WHISTLE_INITIAL_DURATION : Z := 900.
Definition WHISTLE_TRITONE_DURATION : Z := 900.
Definition WHISTLE_FADE_DURATION : Z := 0.

(** ** The two melodies *)

Definition melody : list Z :=
  [NOTE_B4;
   NOTE_E5; NOTE_G5; NOTE_FS5;
   NOTE_E5; NOTE_B5;
   NOTE_A5;
   NOTE_FS5;
   NOTE_E5; NOTE_G5; NOTE_FS5;
   NOTE_DS5; NOTE_F5;
   NOTE_B4;
   NOTE_B4;
   NOTE_E5; NOTE_G5; NOTE_FS5;
   NOTE_E5; NOTE_B5;
   NOTE_D6;
   NOTE_CS6; NOTE_C6;
   NOTE_GS5; NOTE_C6; NOTE_B5;
   NOTE_AS5; NOTE_AS4; NOTE_G5;
   NOTE_E5].

Definition melodyDurations : list Z :=
  [4;
   -4; 8; 4;
   2; 4;
   -2;
   -2;
   -4; 8; 4;
   2; 4;
   -1;
   4;
   -4; 8; 4;
   2; 4;
   2; 4;
   2; 4;
   -4; 8; 4;
   2; 4;
   -1].

Definition MELODY_LENGTH : Z := 30.

Definition melody2 : list Z :=
  [NOTE_E5; NOTE_E6; NOTE_C6; NOTE_E6; NOTE_C6; NOTE_F6; NOTE_E6; NOTE_DS6;
   NOTE_DS6; NOTE_E6; NOTE_C6; NOTE_A5; NOTE_DS5; NOTE_C6; NOTE_A5;
   NOTE_A4; NOTE_B4; NOTE_C5; NOTE_G5; NOTE_G5; NOTE_G5; NOTE_F5; NOTE_C6;
   NOTE_E6; NOTE_C6; NOTE_F5; NOTE_F5; NOTE_D5;
   NOTE_E5; NOTE_E6; NOTE_C6; NOTE_E6; NOTE_C6; NOTE_F6; NOTE_E6; NOTE_DS6;
   NOTE_DS6; NOTE_E6; NOTE_C6; NOTE_A5; NOTE_DS5; NOTE_C6; NOTE_A5].

Definition melody2Durations : list Z :=
  [4; 2; 4; 2; 4; 2; 4; 2; 4; -4; 8; -8; 2; 4; 1;
   -4; -4; 4; 4; 4; 4; 4; 4; 4; 4; 4; 4; 1;
   4; 2; 4; 2; 4; 2; 4; 2; 4; -4; 8; -8; 2; 4; -1].

Definition MELODY2_LENGTH : Z := 43.

(** ** What the sketch observes of its collaborators *)

(** One WS2812 pixel as the NeoPixel buffer holds it. *)
Record Color : Type := mkColor { red : Z; green : Z; blue : Z }.

(** The Talkie vocabulary the announcement uses. *)
Inductive Word : Type :=
| sp2_X | sp2_PRESS | sp2_NINE | sp2_FIVE | sp2_SEVEN | sp2_TWO
| sp5_DEPARTURE | sp2_FROM | sp2_AND | sp2_THREE | sp2_FOUR
| sp2_ALL | sp2_ABORT.

(** The calls whose order the properties below speak about.  The history
    in [calls] keeps them most recent first. *)
Inductive Call : Type :=
| C_startMelody
| C_stationAnnouncement
| C_startChuffing
| C_startWhistle
| C_playNote (freq duration : Z)
| C_whistle (whichWhistle : Z)
| C_chuff
| C_sayAWord (theWord : Word)
| C_delay (ms : Z)
| C_setPixelColor (n : Z) (c : Color)
| C_show.

Record State : Type := mkState {
  gain : Z;
  inMozzi : Z;
  mozziMode : Z;
  inMelody : Z;
  curMelodyNote : Z;
  whichMelody : Z;
  inChuffing : Z;
  curChuff : Z;
  chuffDelay : Z;
  inWhistle : Z;
  curWhistle : Z;
  whichSound : Z;
  counter : Z;          (* static long unsigned int counter of loop() *)
  mozziRunning : bool;  (* startMozzi() / stopMozzi() *)
  aSinFreq : Z;         (* aSin.setFreq *)
  kDelayMs : Z;         (* the time last given to kDelay.start *)
  ledBuiltin : bool;    (* digitalWrite(LED_BUILTIN, _) *)
  pixels : list Color;  (* the strip's pixel buffer *)
  shown : list Color;   (* what strip.show() last sent to the LEDs *)
  calls : list Call
}.

Definition set_gain (v : Z) (s : State) : State :=
  mkState v (inMozzi s) (mozziMode s)
          (inMelody s) (curMelodyNote s) (whichMelody s)
          (inChuffing s) (curChuff s) (chuffDelay s)
          (inWhistle s) (curWhistle s) (whichSound s) (counter s)
          (mozziRunning s) (aSinFreq s) (kDelayMs s) (ledBuiltin s)
          (pixels s) (shown s) (calls s).

Definition set_inMozzi (v : Z) (s : State) : State :=
  mkState (gain s) v (mozziMode s)
          (inMelody s) (curMelodyNote s) (whichMelody s)
          (inChuffing s) (curChuff s) (chuffDelay s)
          (inWhistle s) (curWhistle s) (whichSound s) (counter s)
          (mozziRunning s) (aSinFreq s) (kDelayMs s) (ledBuiltin s)
          (pixels s) (shown s) (calls s).

Definition set_mozziMode (v : Z) (s : State) : State :=
  mkState (gain s) (inMozzi s) v
          (inMelody s) (curMelodyNote s) (whichMelody s)
          (inChuffing s) (curChuff s) (chuffDelay s)
          (inWhistle s) (curWhistle s) (whichSound s) (counter s)
          (mozziRunning s) (aSinFreq s) (kDelayMs s) (ledBuiltin s)
          (pixels s) (shown s) (calls s).

Definition set_inMelody (v : Z) (s : State) : State :=
  mkState (gain s) (inMozzi s) (mozziMode s)
          v (curMelodyNote s) (whichMelody s)
          (inChuffing s) (curChuff s) (chuffDelay s)
          (inWhistle s) (curWhistle s) (whichSound s) (counter s)
          (mozziRunning s) (aSinFreq s) (kDelayMs s) (ledBuiltin s)
          (pixels s) (shown s) (calls s).

Definition set_curMelodyNote (v : Z) (s : State) : State :=
  mkState (gain s) (inMozzi s) (mozziMode s)
          (inMelody s) v (whichMelody s)
          (inChuffing s) (curChuff s) (chuffDelay s)
          (inWhistle s) (curWhistle s) (whichSound s) (counter s)
          (mozziRunning s) (aSinFreq s) (kDelayMs s) (ledBuiltin s)
          (pixels s) (shown s) (calls s).

Definition set_whichMelody (v : Z) (s : State) : State :=
  mkState (gain s) (inMozzi s) (mozziMode s)
          (inMelody s) (curMelodyNote s) v
          (inChuffing s) (curChuff s) (chuffDelay s)
          (inWhistle s) (curWhistle s) (whichSound s) (counter s)
          (mozziRunning s) (aSinFreq s) (kDelayMs s) (ledBuiltin s)
          (pixels s) (shown s) (calls s).

Definition set_inChuffing (v : Z) (s : State) : State :=
  mkState (gain s) (inMozzi s) (mozziMode s)
          (inMelody s) (curMelodyNote s) (whichMelody s)
          v (curChuff s) (chuffDelay s)
          (inWhistle s) (curWhistle s) (whichSound s) (counter s)
          (mozziRunning s) (aSinFreq s) (kDelayMs s) (ledBuiltin s)
          (pixels s) (shown s) (calls s).

Definition set_curChuff (v : Z) (s : State) : State :=
  mkState (gain s) (inMozzi s) (mozziMode s)
          (inMelody s) (curMelodyNote s) (whichMelody s)
          (inChuffing s) v (chuffDelay s)
          (inWhistle s) (curWhistle s) (whichSound s) (counter s)
          (mozziRunning s) (aSinFreq s) (kDelayMs s) (ledBuiltin s)
          (pixels s) (shown s) (calls s).

Definition set_chuffDelay (v : Z) (s : State) : State :=
  mkState (gain s) (inMozzi s) (mozziMode s)
          (inMelody s) (curMelodyNote s) (whichMelody s)
          (inChuffing s) (curChuff s) v
          (inWhistle s) (curWhistle s) (whichSound s) (counter s)
          (mozziRunning s) (aSinFreq s) (kDelayMs s) (ledBuiltin s)
          (pixels s) (shown s) (calls s).

Definition set_inWhistle (v : Z) (s : State) : State :=
  mkState (gain s) (inMozzi s) (mozziMode s)
          (inMelody s) (curMelodyNote s) (whichMelody s)
          (inChuffing s) (curChuff s) (chuffDelay s)
          v (curWhistle s) (whichSound s) (counter s)
          (mozziRunning s) (aSinFreq s) (kDelayMs s) (ledBuiltin s)
          (pixels s) (shown s) (calls s).

Definition set_curWhistle (v : Z) (s : State) : State :=
  mkState (gain s) (inMozzi s) (mozziMode s)
          (inMelody s) (curMelodyNote s) (whichMelody s)
          (inChuffing s) (curChuff s) (chuffDelay s)
          (inWhistle s) v (whichSound s) (counter s)
          (mozziRunning s) (aSinFreq s) (kDelayMs s) (ledBuiltin s)
          (pixels s) (shown s) (calls s).

Definition set_whichSound (v : Z) (s : State) : State :=
  mkState (gain s) (inMozzi s) (mozziMode s)
          (inMelody s) (curMelodyNote s) (whichMelody s)
          (inChuffing s) (curChuff s) (chuffDelay s)
          (inWhistle s) (curWhistle s) v (counter s)
          (mozziRunning s) (aSinFreq s) (kDelayMs s) (ledBuiltin s)
          (pixels s) (shown s) (calls s).

Definition set_counter (v : Z) (s : State) : State :=
  mkState (gain s) (inMozzi s) (mozziMode s)
          (inMelody s) (curMelodyNote s) (whichMelody s)
          (inChuffing s) (curChuff s) (chuffDelay s)
          (inWhistle s) (curWhistle s) (whichSound s) v
          (mozziRunning s) (aSinFreq s) (kDelayMs s) (ledBuiltin s)
          (pixels s) (shown s) (calls s).

Definition set_mozziRunning (v : bool) (s : State) : State :=
  mkState (gain s) (inMozzi s) (mozziMode s)
          (inMelody s) (curMelodyNote s) (whichMelody s)
          (inChuffing s) (curChuff s) (chuffDelay s)
          (inWhistle s) (curWhistle s) (whichSound s) (counter s)
          v (aSinFreq s) (kDelayMs s) (ledBuiltin s)
          (pixels s) (shown s) (calls s).

Definition set_aSinFreq (v : Z) (s : State) : State :=
  mkState (gain s) (inMozzi s) (mozziMode s)
          (inMelody s) (curMelodyNote s) (whichMelody s)
          (inChuffing s) (curChuff s) (chuffDelay s)
          (inWhistle s) (curWhistle s) (whichSound s) (counter s)
          (mozziRunning s) v (kDelayMs s) (ledBuiltin s)
          (pixels s) (shown s) (calls s).

Definition set_kDelayMs (v : Z) (s : State) : State :=
  mkState (gain s) (inMozzi s) (mozziMode s)
          (inMelody s) (curMelodyNote s) (whichMelody s)
          (inChuffing s) (curChuff s) (chuffDelay s)
          (inWhistle s) (curWhistle s) (whichSound s) (counter s)
          (mozziRunning s) (aSinFreq s) v (ledBuiltin s)
          (pixels s) (shown s) (calls s).

Definition set_ledBuiltin (v : bool) (s : State) : State :=
  mkState (gain s) (inMozzi s) (mozziMode s)
          (inMelody s) (curMelodyNote s) (whichMelody s)
          (inChuffing s) (curChuff s) (chuffDelay s)
          (inWhistle s) (curWhistle s) (whichSound s) (counter s)
          (mozziRunning s) (aSinFreq s) (kDelayMs s) v
          (pixels s) (shown s) (calls s).

Definition set_pixels (v : list Color) (s : State) : State :=
  mkState (gain s) (inMozzi s) (mozziMode s)
          (inMelody s) (curMelodyNote s) (whichMelody s)
          (inChuffing s) (curChuff s) (chuffDelay s)
          (inWhistle s) (curWhistle s) (whichSound s) (counter s)
          (mozziRunning s) (aSinFreq s) (kDelayMs s) (ledBuiltin s)
          v (shown s) (calls s).

Definition set_shown (v : list Color) (s : State) : State :=
  mkState (gain s) (inMozzi s) (mozziMode s)
          (inMelody s) (curMelodyNote s) (whichMelody s)
          (inChuffing s) (curChuff s) (chuffDelay s)
          (inWhistle s) (curWhistle s) (whichSound s) (counter s)
          (mozziRunning s) (aSinFreq s) (kDelayMs s) (ledBuiltin s)
          (pixels s) v (calls s).

Definition set_calls (v : list Call) (s : State) : State :=
  mkState (gain s) (inMozzi s) (mozziMode s)
          (inMelody s) (curMelodyNote s) (whichMelody s)
          (inChuffing s) (curChuff s) (chuffDelay s)
          (inWhistle s) (curWhistle s) (whichSound s) (counter s)
          (mozziRunning s) (aSinFreq s) (kDelayMs s) (ledBuiltin s)
          (pixels s) (shown s) v.

Definition black : Color := mkColor 0 0 0.

(** The globals as their initialisers leave them, before [setup] runs. *)
Definition powerOn : State :=
  {| gain := 0; inMozzi := 0; mozziMode := MOZZI_CHUFF;
     inMelody := 0; curMelodyNote := 0; whichMelody := 0;
     inChuffing := 0; curChuff := 0; chuffDelay := CHUFF_DELAY;
     inWhistle := 0; curWhistle := WHISTLE_INITIAL;
     whichSound := 0; counter := 1;
     mozziRunning := false; aSinFreq := 0; kDelayMs := 0;
     ledBuiltin := false;
     pixels := [black; black; black]; shown := [black; black; black];
     calls := [] |}.

Definition record_call (c : Call) (s : State) : State :=
  set_calls (c :: calls s) s.

(** The calls made so far, oldest first. *)
Definition history (s : State) : list Call := rev (calls s).

(** ** Collaborators *)

Definition digitalWrite (v : bool) (s : State) : State := set_ledBuiltin v s.

Definition delay (ms : Z) (s : State) : State := record_call (C_delay ms) s.

Definition startMozzi (s : State) : State := set_mozziRunning true s.
Definition stopMozzi (s : State) : State := set_mozziRunning false s.

(** [kDelay.start(unsigned int)]. *)
Definition kDelay_start (ms : Z) (s : State) : State :=
  set_kDelayMs (uint16 ms) s.

Fixpoint list_set {A : Type} (n : nat) (x : A) (l : list A) : list A :=
  match l, n with
  | [], _ => []
  | _ :: t, O => x :: t
  | h :: t, S m => h :: list_set m x t
  end.

(** [strip.setPixelColor(uint16_t n, uint8_t r, uint8_t g, uint8_t b)] at
    brightness 255: the three bytes are stored as they are, and a pixel
    outside the strip is ignored. *)
Definition setPixelColor (n r g b : Z) (s : State) : State :=
  let n := uint16 n in
  let c := mkColor (uint8 r) (uint8 g) (uint8 b) in
  let s := record_call (C_setPixelColor n c) s in
  if n <? LED_COUNT
  then set_pixels (list_set (Z.to_nat n) c (pixels s)) s
  else s.

Definition show (s : State) : State :=
  set_shown (pixels s) (record_call C_show s).

(** Arduino's [random(howbig)] over the value [raw] that avr-libc's
    [random()] returns for this call. *)
Definition random (raw : N) (howbig : Z) : Z :=
  if howbig =? 0 then 0 else Z.rem (Z.of_N raw) howbig.

(** ** The sketch *)

Definition cutTheLights (s : State) : State :=
  show (setPixelColor 2 0 0 0 (setPixelColor 1 0 0 0 (setPixelColor 0 0 0 0 s))).

Definition playNote (freq duration : Z) (s : State) : State :=
  let s := record_call (C_playNote freq duration) s in
  let s := startMozzi s in
  let s := set_aSinFreq freq s in
  let s := digitalWrite true s in
  let s := set_inMozzi 1 s in
  let s := set_mozziMode MOZZI_NOTE s in
  kDelay_start duration s.

(** The conversion of a duration code in [playNextNoteInMelody]. *)
Definition noteDuration (duration : Z) : option Z :=
  let duration := if duration =? 0 then 1 else duration in
  if duration >? 0 then
    cdiv 1024 duration
  else
    let duration := int16 (- duration) in
    cdiv (int16 (1024 * 3)) (int16 (duration * 2)).

Definition playNextNoteInMelody (s : State) : option State :=
  entry <-
    (if whichMelody s =? 0 then
       duration <- aget melodyDurations (curMelodyNote s) ;;
       note <- aget melody (curMelodyNote s) ;;
       Some (duration, note, MELODY_LENGTH)
     else
       duration <- aget melody2Durations (curMelodyNote s) ;;
       note <- aget melody2 (curMelodyNote s) ;;
       Some (duration, note, MELODY2_LENGTH)) ;;
  let '(duration, note, melodyLength) := entry in
  duration <- noteDuration duration ;;
  let s := playNote note duration s in
  let s := set_curMelodyNote (int16 (curMelodyNote s + 1)) s in
  Some (if curMelodyNote s >=? melodyLength
        then set_inMelody 0 (set_curMelodyNote 0 s)
        else s).

Definition startMelody (s : State) : option State :=
  let s := record_call C_startMelody s in
  let s := set_inMelody 1 s in
  let s := set_curMelodyNote 0 s in
  let s := set_whichMelody (whichSound s) s in
  let s := if whichMelody s >? 0 then set_whichMelody 1 s else s in
  playNextNoteInMelody s.

Definition whistle (whichWhistle : Z) (s : State) : State :=
  let s := record_call (C_whistle whichWhistle) s in
  let s := startMozzi s in
  let s := digitalWrite true s in
  let s := set_inMozzi 1 s in
  let s := set_mozziMode MOZZI_WHISTLE s in
  if whichWhistle =? WHISTLE_TRITONE then
    kDelay_start WHISTLE_TRITONE_DURATION s
  else if whichWhistle =? WHISTLE_INITIAL then
    kDelay_start WHISTLE_INITIAL_DURATION s
  else
    kDelay_start WHISTLE_FADE_DURATION s.

Definition nextWhistle (s : State) : State :=
  let s := whistle (curWhistle s) s in
  let s := set_curWhistle (int16 (curWhistle s + 1)) s in
  if curWhistle s >? WHISTLE_FADE
  then set_inWhistle 0 (set_curWhistle 0 s)
  else s.

Definition startWhistle (s : State) : State :=
  let s := record_call C_startWhistle s in
  let s := set_inWhistle 1 s in
  let s := set_curWhistle 0 s in
  nextWhistle s.

(** [chuff] draws two numbers from Mozzi's own generator and overwrites
    them at once: [duration] is 1000 and the envelope 75 / 925. *)
Definition chuff (s : State) : State :=
  let s := record_call C_chuff s in
  let s := startMozzi s in
  let duration := 1000 in
  let s := digitalWrite true s in
  let s := set_inMozzi 1 s in
  let s := set_mozziMode MOZZI_CHUFF s in
  kDelay_start (duration + chuffDelay s) s.

Definition chuffNextChuff (s : State) : State :=
  let s := chuff s in
  let s := set_chuffDelay (int16 (chuffDelay s - 150)) s in
  let s := if chuffDelay s <? 50 then set_chuffDelay 50 s else s in
  let s := set_curChuff (int16 (curChuff s + 1)) s in
  if curChuff s >=? NUM_CHUFFS
  then set_inChuffing 0 (set_curChuff 0 s)
  else s.

Definition startChuffing (s : State) : State :=
  let s := record_call C_startChuffing s in
  let s := set_inChuffing 1 s in
  let s := set_curChuff 0 s in
  let s := set_chuffDelay CHUFF_DELAY s in
  chuffNextChuff s.

(** [updateControl], which Mozzi calls from inside [audioHook]: [ready] is
    what [kDelay.ready()] answers and [envelope] what [kEnvelope.next()]
    would return. *)
Definition updateControl (ready : bool) (envelope : Z) (s : State) : State :=
  if ready then
    digitalWrite false (set_inMozzi 0 (set_gain 0 s))
  else if (mozziMode s =? MOZZI_CHUFF) || (mozziMode s =? MOZZI_WHISTLE) then
    set_gain (int16 envelope) s
  else
    s.

(** What one call of [audioHook] does to the sketch. *)
Inductive Hook : Type :=
| AudioOnly
| Control (ready : bool) (envelope : Z).

Definition audioHook (h : Hook) (s : State) : State :=
  match h with
  | AudioOnly => s
  | Control ready envelope => updateControl ready envelope s
  end.

Definition sayAWord (theWord : Word) (s : State) : State :=
  record_call (C_sayAWord theWord) s.

Definition stationAnnouncement (s : State) : State :=
  let s := record_call C_stationAnnouncement s in
  let s := digitalWrite true s in
  let s := fold_left (fun st w => sayAWord w st)
             [sp2_X; sp2_PRESS; sp2_NINE; sp2_FIVE; sp2_SEVEN; sp2_TWO;
              sp5_DEPARTURE; sp2_FROM; sp2_NINE; sp2_AND; sp2_THREE; sp2_FOUR]
             s in
  let s := delay 700 s in
  let s := sayAWord sp2_ABORT (sayAWord sp2_ALL s) in
  let s := digitalWrite false s in
  delay 500 s.

(** [trainLights]; [rnd k] is the raw value of the k-th [random()] call the
    function makes on the path it takes. *)
Definition trainLights (rnd : nat -> N) (s : State) : State :=
  let whichLight := int16 (random (rnd 0%nat) 3) in
  let s := digitalWrite false s in
  let s := delay (10 + random (rnd 1%nat) 90) s in
  let s := digitalWrite true s in
  let '(r, g, b) :=
    if whichLight =? 2 then
      let r := int16 (200 + random (rnd 2%nat) 10) in
      let g := int16 (r - 120 + random (rnd 3%nat) 5) in
      (r, g, g)
    else if whichLight =? 0 then
      let g := int16 (95 + random (rnd 2%nat) 5) in
      let r := int16 (195 + random (rnd 3%nat) 10) in
      (r, g, 0)
    else if random (rnd 2%nat) 10 =? 1 then
      let r := int16 (255 * random (rnd 3%nat) 2) in
      let g := int16 (255 * random (rnd 4%nat) 2) in
      let b := int16 (255 * random (rnd 5%nat) 2) in
      (r, g, b)
    else
      let r := int16 (150 + random (rnd 3%nat) 50) in
      let g := int16 (random (rnd 4%nat) 20) in
      (r, g, 0) in
  show (setPixelColor whichLight r g b s).

Definition setup (s : State) : option State :=
  let s := cutTheLights s in
  let s := set_aSinFreq 440 s in
  let s := set_inMozzi 0 s in
  let s := delay 1000 s in
  s <- startMelody s ;;
  Some (set_whichSound (int16 (whichSound s + 1)) s).

(** What one pass through [loop] takes from outside. *)
Record Input : Type := mkInput { hook : Hook; rnd : nat -> N }.

(** The block of [loop] that starts the next sound of the rotation. *)
Definition launchSound (s : State) : option State :=
  s <- (if whichSound s <? 2 then startMelody s
        else if whichSound s =? 2 then Some (stationAnnouncement s)
        else if whichSound s =? 3 then Some (startChuffing s)
        else Some (startWhistle s)) ;;
  let s := set_whichSound (int16 (whichSound s + 1)) s in
  Some (if whichSound s >? 4 then set_whichSound 0 s else s).

Definition loop (i : Input) (s : State) : option State :=
  if inMozzi s =? 1 then
    Some (audioHook (hook i) s)
  else
    let s := stopMozzi s in
    if inMelody s =? 1 then
      playNextNoteInMelody s
    else if inChuffing s =? 1 then
      Some (chuffNextChuff s)
    else
      let s := if inWhistle s =? 1 then nextWhistle s else s in
      let s := trainLights (rnd i) s in
      s <- (if counter s mod FLICKERS_PER_SOUND =? 0
            then launchSound s
            else Some s) ;;
      let s := set_counter (uint32 (counter s + 1)) s in
      Some (if counter s >? 32000 then set_counter 0 s else s).

(** Passes through [loop], one per input. *)
Fixpoint run (inputs : list Input) (s : State) : option State :=
  match inputs with
  | [] => Some s
  | i :: rest => s' <- loop i s ;; run rest s'
  end.

(** [n] passes that all take the same input. *)
Definition runSame (n : N) (i : Input) (s : State) : option State :=
  N.iter n (fun o => s' <- o ;; loop i s') (Some s).

(** The states the sketch can be in between two passes through [loop]. *)
Inductive reachable : State -> Prop :=
| reach_setup : forall s, setup powerOn = Some s -> reachable s
| reach_loop : forall s i s',
    reachable s -> loop i s = Some s' -> reachable s'.


(** * Vocabulary of the properties *)

(** ** The melody tables *)

Definition tableDurations (m : Z) : list Z :=
  if m =? 0 then melodyDurations else melody2Durations.
Definition tableNotes (m : Z) : list Z :=
  if m =? 0 then melody else melody2.
Definition tableLength (m : Z) : Z :=
  if m =? 0 then MELODY_LENGTH else MELODY2_LENGTH.

Definition smallCode (d : Z) : Prop := d <> 0 /\ -8 <= d <= 8.

(** The playback length as the design document words it: [baseUnit / code]
    for a positive code, [(baseUnit * 3) / (|code| * 2)] for a negative
    one, with [baseUnit = 1024]. *)
Definition spec_playbackLength (code : Z) : Z :=
  if 0 <? code then 1024 / code else (1024 * 3) / (Z.abs code * 2).

(** ** Parts of the sketch's functions *)

(** [startMelody] up to its call of [playNextNoteInMelody]. *)
Definition melodyReset (s : State) : State :=
  let s := record_call C_startMelody s in
  let s := set_inMelody 1 s in
  let s := set_curMelodyNote 0 s in
  let s := set_whichMelody (whichSound s) s in
  if whichMelody s >? 0 then set_whichMelody 1 s else s.

(** The state [playNextNoteInMelody] leaves when it plays [note] for [len]
    milliseconds. *)
Definition afterNote (note len : Z) (s : State) : State :=
  let next := curMelodyNote s + 1 in
  let s1 := set_curMelodyNote next (playNote note len s) in
  if next >=? tableLength (whichMelody s)
  then set_inMelody 0 (set_curMelodyNote 0 s1)
  else s1.

(** [startChuffing] up to its call of [chuffNextChuff]. *)
Definition chuffReset (s : State) : State :=
  let s := record_call C_startChuffing s in
  let s := set_inChuffing 1 s in
  let s := set_curChuff 0 s in
  set_chuffDelay CHUFF_DELAY s.

(** The state [trainLights] leaves when its frame writes colour [c] to
    zone [w] after a pause of [ms] milliseconds. *)
Definition afterFrame (w : Z) (c : Color) (ms : Z) (s : State) : State :=
  let s := digitalWrite true (delay ms (digitalWrite false s)) in
  let s := record_call (C_setPixelColor w c) s in
  show (set_pixels (list_set (Z.to_nat w) c (pixels s)) s).

(** [nextWhistle] if a whistle is under way, as [loop] calls it without
    leaving the pass. *)
Definition whistleStep (s : State) : State :=
  if inWhistle s =? 1 then nextWhistle s else s.

(** The last two statements of [loop]. *)
Definition bump (s : State) : State :=
  let s := set_counter (uint32 (counter s + 1)) s in
  if counter s >? 32000 then set_counter 0 s else s.

(** ** Sub-machines stepped on their own *)

(** The melody player after its launch, which plays the first note, and
    [k] further steps. *)
Fixpoint melodyAfter (k : nat) (s : State) : option State :=
  match k with
  | O => startMelody s
  | S k' => s' <- melodyAfter k' s ;; playNextNoteInMelody s'
  end.

(** The pulse sequencer after its reset and [k] pulses; [startChuffing]
    itself is [chuffPulses 1]. *)
Fixpoint chuffPulses (k : nat) (s : State) : State :=
  match k with
  | O => chuffReset s
  | S k' => chuffNextChuff (chuffPulses k' s)
  end.

(** Steps of the whistle until it reports itself inactive, at most [fuel]
    of them. *)
Fixpoint whistleToEnd (fuel : nat) (s : State) : State :=
  match fuel with
  | O => s
  | S fuel' =>
      if inWhistle s =? 1 then whistleToEnd fuel' (nextWhistle s) else s
  end.

(** [n] whistles, each launched when the one before it has ended. *)
Fixpoint whistles (n : nat) (s : State) : State :=
  match n with
  | O => s
  | S n' => whistleToEnd 4 (startWhistle (whistles n' s))
  end.

(** ** Reading the call history *)

Inductive Sound : Type := Melody | Announcement | PulseSequence | ToneSequence.

Definition isLaunch (c : Call) : option Sound :=
  match c with
  | C_startMelody => Some Melody
  | C_stationAnnouncement => Some Announcement
  | C_startChuffing => Some PulseSequence
  | C_startWhistle => Some ToneSequence
  | _ => None
  end.

Definition isShow (c : Call) : bool :=
  match c with
  | C_show => true
  | _ => false
  end.

Fixpoint launchCalls (l : list Call) : list Sound :=
  match l with
  | [] => []
  | c :: rest =>
      match isLaunch c with
      | Some snd => snd :: launchCalls rest
      | None => launchCalls rest
      end
  end.

(** The sounds launched so far, oldest first. *)
Definition soundsLaunched (s : State) : list Sound :=
  rev (launchCalls (calls s)).

(** The arguments of the calls of [whistle] in a history. *)
Fixpoint whistleStages (l : list Call) : list Z :=
  match l with
  | [] => []
  | C_whistle stage :: rest => stage :: whistleStages rest
  | _ :: rest => whistleStages rest
  end.

(** Walks a history from its most recent call back: [frames] counts the
    frames seen since the last launch met, and each launch puts the count
    in front of [acc]. *)
Fixpoint gapsFrom (l : list Call) (frames : nat) (acc : list nat) : list nat :=
  match l with
  | [] => acc
  | c :: rest =>
      match isLaunch c with
      | Some _ => gapsFrom rest 0 (frames :: acc)
      | None => gapsFrom rest (if isShow c then S frames else frames) acc
      end
  end.

(** For each launch so far, oldest first, the number of frames drawn after
    it and up to the next launch (for the last launch, up to now).  The
    pass that launches a sound draws its frame before it launches. *)
Definition launchGaps (s : State) : list nat := gapsFrom (calls s) 0 [].

(** ** The rotation *)

(** The sound the rotation starts at index [w], and the index after it. *)
Definition soundAt (w : Z) : Sound :=
  nth (Z.to_nat w)
      [Melody; Melody; Announcement; PulseSequence; ToneSequence] Melody.

Definition nextIndex (w : Z) : Z := (w + 1) mod 5.

Fixpoint rotationFrom (w : Z) (k : nat) : list Sound :=
  match k with
  | O => []
  | S k' => soundAt w :: rotationFrom (nextIndex w) k'
  end.

(** ** Activity *)

Definition active (flag : Z) : Z := if flag =? 1 then 1 else 0.

(** How many of the three stepped sub-machines report themselves active.
    The announcement has no flag: it runs from start to end inside the
    pass that launches it. *)
Definition activeCount (s : State) : Z :=
  active (inMelody s) + active (inChuffing s) + active (inWhistle s).

(** ** Invariants *)

(** What holds of the sketch's variables when the counter of [loop] is, or
    is about to be, [c].  A whistle that is under way was launched when the
    counter was a multiple of 300, and every step of it moves the counter
    on by one. *)
Record consistentAt (c : Z) (s : State) : Prop := mkConsistent {
  wf_inMozzi : inMozzi s = 0 \/ inMozzi s = 1;
  wf_inMelody : inMelody s = 0 \/ inMelody s = 1;
  wf_inChuffing : inChuffing s = 0 \/ inChuffing s = 1;
  wf_inWhistle : inWhistle s = 0 \/ inWhistle s = 1;
  wf_exclusive : inMelody s + inChuffing s + inWhistle s <= 1;
  wf_melody :
    inMelody s = 1 -> 0 <= curMelodyNote s < tableLength (whichMelody s);
  wf_curChuff : 0 <= curChuff s < NUM_CHUFFS;
  wf_chuffDelay : 50 <= chuffDelay s <= CHUFF_DELAY;
  wf_whistle :
    inWhistle s = 1 ->
    1 <= curWhistle s <= 2 /\ c mod FLICKERS_PER_SOUND = curWhistle s;
  wf_whichSound : 0 <= whichSound s <= 4;
  wf_counter : 0 <= counter s <= 32000;
  wf_pixels : length (pixels s) = 3%nat
}.

(** The invariant between two passes. *)
Definition wellFormed (s : State) : Prop := consistentAt (counter s) s.

(** The invariant in the middle of an idle pass, after the frame and before
    the counter moves on. *)
Definition midPass (s : State) : Prop := consistentAt (counter s + 1) s.

(** What a pass does to the rotation: nothing, or it launches the sound at
    the current index from a state in which nothing was sounding. *)
Definition passEffect (s s' : State) : Prop :=
  (~ (inMozzi s = 0 /\ inMelody s = 0 /\ inChuffing s = 0 /\
      counter s mod FLICKERS_PER_SOUND = 0) /\
   whichSound s' = whichSound s /\
   launchCalls (calls s') = launchCalls (calls s)) \/
  (inMozzi s = 0 /\ inMelody s = 0 /\ inChuffing s = 0 /\ inWhistle s = 0 /\
   counter s mod FLICKERS_PER_SOUND = 0 /\
   whichSound s' = nextIndex (whichSound s) /\
   launchCalls (calls s') = soundAt (whichSound s) :: launchCalls (calls s)).

(** ** Concrete states and inputs *)

(** The state [setup] hands to the first pass through [loop]. *)
Definition afterSetup : State :=
  Eval vm_compute in
    match setup powerOn with
    | Some s => s
    | None => powerOn
    end.

(** The input of a pass in which the tone that is sounding ends at once and
    every [random()] returns 0. *)
Definition quiet : Input := mkInput (Control true 0) (fun _ => 0%N).

(** The input of a pass in which every [random()] returns 2, so that the
    frame writes zone 2. *)
Definition flash : Input := mkInput (Control true 0) (fun _ => 2%N).

(** The state after the first pass through [loop]. *)
Definition afterFirstPass : State :=
  Eval vm_compute in
    match loop quiet afterSetup with
    | Some s => s
    | None => afterSetup
    end.

(** * More of the sketch *)

(** What the oscillators' [next()] return to one call of [updateAudio];
    each is an [int8_t]. *)
Record Samples : Type := mkSamples {
  aNoise_next : Z;
  aSin_next : Z;
  aSquare_next : Z;
  bSquare_next : Z;
  cSquare_next : Z;
  dSquare_next : Z
}.

(** How [updateAudio] ends: with [return 0], with the value it hands to
    [MonoOutput::from16Bit], or at the closing brace, without a [return]. *)
Inductive AudioOut : Type :=
| Silence
| From16Bit (v : Z)
| NoReturn.

(** Sums and products of [int]s. *)
Definition iadd (a b : Z) : Z := int16 (a + b).
Definition imul (a b : Z) : Z := int16 (a * b).

Definition updateAudio (x : Samples) (s : State) : AudioOut :=
  if inMozzi s =? 0 then
    Silence
  else if mozziMode s =? MOZZI_CHUFF then
    From16Bit (imul (gain s) (aNoise_next x))
  else if mozziMode s =? MOZZI_NOTE then
    From16Bit (imul (aSin_next x) 257)
  else if mozziMode s =? MOZZI_WHISTLE then
    if negb (curWhistle s =? WHISTLE_TRITONE) then
      From16Bit
        (iadd (iadd (imul (aSquare_next x) 100)
                    (iadd (iadd (bSquare_next x) (cSquare_next x))
                          (imul (dSquare_next x) 64)))
              (imul (aNoise_next x) 85))
    else
      From16Bit
        (iadd (imul (aSquare_next x) 100) (imul (aNoise_next x) 85))
  else
    NoReturn.

(** * Vocabulary of the further properties *)

Definition int8 (z : Z) : Prop := -128 <= z <= 127.

Definition int8Samples (x : Samples) : Prop :=
  int8 (aNoise_next x) /\ int8 (aSin_next x) /\ int8 (aSquare_next x) /\
  int8 (bSquare_next x) /\ int8 (cSquare_next x) /\ int8 (dSquare_next x).

(** The colours [trainLights] draws for each zone: the engine's front
    light (zone 2), the cabin light (zone 0), and for the stove (zone 1)
    a flash of a saturated colour or the glow of the fire. *)
Definition engineLight (c : Color) : Prop :=
  200 <= red c <= 209 /\
  red c - 120 <= green c <= red c - 116 /\
  blue c = green c.

Definition cabinLight (c : Color) : Prop :=
  195 <= red c <= 204 /\ 95 <= green c <= 99 /\ blue c = 0.

Definition stoveFlash (c : Color) : Prop :=
  (red c = 0 \/ red c = 255) /\
  (green c = 0 \/ green c = 255) /\
  (blue c = 0 \/ blue c = 255).

Definition stoveGlow (c : Color) : Prop :=
  150 <= red c <= 199 /\ 0 <= green c <= 19 /\ blue c = 0.

Definition palette (w : Z) (c : Color) : Prop :=
  if w =? 2 then engineLight c
  else if w =? 0 then cabinLight c
  else stoveFlash c \/ stoveGlow c.

(** A zone is dark, as [cutTheLights] leaves it, or holds a colour of its
    palette. *)
Definition zoneColour (w : Z) (c : Color) : Prop := c = black \/ palette w c.

(** The steps of its sound the sketch still has to take, each counted
    twice, and one more while a tone sounds: the number of passes through
    [loop] a sound needs to end when no pass has to wait for the timer. *)
Definition stepsLeft (s : State) : Z :=
  if inMelody s =? 1 then tableLength (whichMelody s) - curMelodyNote s
  else if inChuffing s =? 1 then NUM_CHUFFS - curChuff s
  else if inWhistle s =? 1 then 3 - curWhistle s
  else 0.

Definition pending (s : State) : Z :=
  (if inMozzi s =? 1 then 1 else 0) + 2 * stepsLeft s.

(** The calls of [playNote] that play the table of melody [m] from its
    first entry to its last. *)
Definition notesOf (m : Z) : list Call :=
  map (fun p => C_playNote (fst p) (spec_playbackLength (snd p)))
      (combine (tableNotes m) (tableDurations m)).

(** How many times the strip has been shown. *)
Definition framesDrawn (s : State) : nat :=
  length (filter isShow (calls s)).

(** An input of a pass that finds the timer expired. *)
Definition timerReady (i : Input) : Prop :=
  exists envelope, hook i = Control true envelope.

(** The pass through [loop] from a well-formed state [s] to [s'], by the
    branch that is taken. *)
Inductive Pass (i : Input) (s : State) : State -> Prop :=
| pass_audio :
    inMozzi s = 1 ->
    Pass i s (audioHook (hook i) s)
| pass_note d note :
    inMozzi s = 0 -> inMelody s = 1 ->
    aget (tableDurations (whichMelody s)) (curMelodyNote s) = Some d ->
    aget (tableNotes (whichMelody s)) (curMelodyNote s) = Some note ->
    d <> 0 ->
    Pass i s (afterNote note (spec_playbackLength d) (stopMozzi s))
| pass_chuff :
    inMozzi s = 0 -> inMelody s = 0 -> inChuffing s = 1 ->
    Pass i s (chuffNextChuff (stopMozzi s))
| pass_frame w c ms :
    inMozzi s = 0 -> inMelody s = 0 -> inChuffing s = 0 ->
    counter s mod FLICKERS_PER_SOUND <> 0 ->
    0 <= w < 3 -> palette w c -> 10 <= ms <= 99 ->
    Pass i s (bump (afterFrame w c ms (whistleStep (stopMozzi s))))
| pass_launch w c ms s3 :
    inMozzi s = 0 -> inMelody s = 0 -> inChuffing s = 0 ->
    inWhistle s = 0 ->
    counter s mod FLICKERS_PER_SOUND = 0 ->
    0 <= w < 3 -> palette w c -> 10 <= ms <= 99 ->
    launchSound (afterFrame w c ms (stopMozzi s)) = Some s3 ->
    Pass i s (bump s3).

(** The three zones of the strip, each dark or in its palette. *)
Definition zonesInPalette (l : list Color) : Prop :=
  exists c0 c1 c2,
    l = [c0; c1; c2] /\
    zoneColour 0 c0 /\ zoneColour 1 c1 /\ zoneColour 2 c2.

(** What holds between two passes beyond [wellFormed]. *)
Record settled (s : State) : Prop := mkSettled {
  st_mode :
    mozziMode s = MOZZI_CHUFF \/ mozziMode s = MOZZI_NOTE \/
    mozziMode s = MOZZI_WHISTLE;
  st_melody : whichMelody s = 0 \/ whichMelody s = 1;
  st_sounding : inMozzi s = 1 -> mozziRunning s = true /\ ledBuiltin s = true;
  st_timer : 0 <= kDelayMs s <= 3072;
  st_shown : shown s = pixels s;
  st_zones : zonesInPalette (pixels s)
}.

(** ** Further concrete states

    Each is what the run from [afterSetup] under [quiet] inputs reaches. *)

(** After 358 passes: the start-up melody is over, the counter is at 300
    and the rotation at index 1. *)
Definition beforeSecondMelody : State :=
  Eval vm_compute in
    match runSame 358 quiet afterSetup with
    | Some s => s
    | None => afterSetup
    end.

Definition secondMelodyLaunched : State :=
  Eval vm_compute in
    match loop quiet beforeSecondMelody with
    | Some s => s
    | None => afterSetup
    end.

(** After 743 passes: the second melody is over, the counter is at 600 and
    the rotation at index 2. *)
Definition beforeAnnouncement : State :=
  Eval vm_compute in
    match runSame 743 quiet afterSetup with
    | Some s => s
    | None => afterSetup
    end.

Definition afterAnnouncement : State :=
  Eval vm_compute in
    match loop quiet beforeAnnouncement with
    | Some s => s
    | None => afterSetup
    end.

(** ** The arguments of a frame *)

(** The zone and the three [int]s [r], [g], [b] that [trainLights] hands
    to [strip.setPixelColor], as the function computes them, before the
    call narrows them to [uint16_t] and [uint8_t]. *)
Definition frameArguments (rnd : nat -> N) : Z * Z * Z * Z :=
  let whichLight := int16 (random (rnd 0%nat) 3) in
  let '(r, g, b) :=
    if whichLight =? 2 then
      let r := int16 (200 + random (rnd 2%nat) 10) in
      let g := int16 (r - 120 + random (rnd 3%nat) 5) in
      (r, g, g)
    else if whichLight =? 0 then
      let g := int16 (95 + random (rnd 2%nat) 5) in
      let r := int16 (195 + random (rnd 3%nat) 10) in
      (r, g, 0)
    else if random (rnd 2%nat) 10 =? 1 then
      let r := int16 (255 * random (rnd 3%nat) 2) in
      let g := int16 (255 * random (rnd 4%nat) 2) in
      let b := int16 (255 * random (rnd 5%nat) 2) in
      (r, g, b)
    else
      let r := int16 (150 + random (rnd 3%nat) 50) in
      let g := int16 (random (rnd 4%nat) 20) in
      (r, g, 0) in
  (whichLight, r, g, b).

(** The pause of a frame: the argument of its [delay]. *)
Definition framePause (rnd : nat -> N) : Z := 10 + random (rnd 1%nat) 90.

(** ** The passes up to the next launch *)

(** The frames still to be drawn, with the counter at [c], before [loop]
    finds it at a multiple of 300; past 31800 that multiple is the 0 the
    counter is set to after 32000. *)
Definition framesToLaunch (c : Z) : Z :=
  if c mod FLICKERS_PER_SOUND =? 0 then 0
  else if c >? 31800 then 32001 - c
  else FLICKERS_PER_SOUND - c mod FLICKERS_PER_SOUND.

(** Where the counter stands once the sound under way is over: only the
    steps of the tone sequence move it on. *)
Definition counterAtIdle (s : State) : Z :=
  counter s + (if inWhistle s =? 1 then 3 - curWhistle s else 0).

(** The passes from [s] up to the pass that launches the next sound, when
    no pass has to wait for the timer. *)
Definition tillLaunch (s : State) : Z :=
  pending s + framesToLaunch (counterAtIdle s).

(** * Properties *)

(** ** Machine arithmetic inside its range *)

(** Simplification computes arithmetic on literals only; arithmetic on
    program variables is left folded for [lia]. *)
#[local] Arguments Z.add !x !y.
#[local] Arguments Z.sub !m !n.
#[local] Arguments Z.mul !x !y.
#[local] Arguments Z.opp !x.
#[local] Arguments Z.modulo !a !b.
#[local] Arguments Z.div !a !b.
#[local] Arguments Z.quot !a !b.
#[local] Arguments Z.rem !a !b.
#[local] Arguments int16 !z.
#[local] Arguments uint16 !z.
#[local] Arguments uint32 !z.
#[local] Arguments uint8 !z.

(** [lia] is to reason about quotients and remainders by literals. *)
Ltac Zify.zify_post_hook ::= Z.to_euclidean_division_equations.

Lemma int16_small (z : Z) : -32768 <= z < 32768 -> int16 z = z.
Proof.
  intros H. unfold int16.
  rewrite Z.mod_small by lia. lia.
Qed.

Lemma uint16_small (z : Z) : 0 <= z < 65536 -> uint16 z = z.
Proof. intros H. unfold uint16. now apply Z.mod_small. Qed.

Lemma uint32_small (z : Z) : 0 <= z < 4294967296 -> uint32 z = z.
Proof. intros H. unfold uint32. now apply Z.mod_small. Qed.

Lemma uint8_small (z : Z) : 0 <= z < 256 -> uint8 z = z.
Proof. intros H. unfold uint8. now apply Z.mod_small. Qed.

Lemma random_range (raw : N) (howbig : Z) :
  0 < howbig -> 0 <= random raw howbig < howbig.
Proof.
  intros H. unfold random.
  destruct (Z.eqb_spec howbig 0) as [E | _]; [lia |].
  rewrite Z.rem_mod_nonneg by lia.
  apply Z.mod_pos_bound. exact H.
Qed.

(** ** Array reads inside the bounds *)

Lemma aget_inside (a : list Z) (i : Z) :
  0 <= i < Z.of_nat (length a) ->
  exists x, aget a i = Some x /\ In x a.
Proof.
  intros H. unfold aget.
  destruct (Z.ltb_spec i 0) as [Hneg | _]; [lia |].
  destruct (nth_error a (Z.to_nat i)) as [x |] eqn:E.
  - exists x. split; [reflexivity |]. eapply nth_error_In. exact E.
  - apply nth_error_None in E. lia.
Qed.

Lemma melodyDurations_small : Forall smallCode melodyDurations.
Proof. unfold melodyDurations, smallCode. repeat constructor; lia. Qed.

Lemma melody2Durations_small : Forall smallCode melody2Durations.
Proof. unfold melody2Durations, smallCode. repeat constructor; lia. Qed.

Lemma noteDuration_positive (d : Z) :
  0 < d < 32768 -> noteDuration d = Some (1024 / d).
Proof.
  intros H. unfold noteDuration, cdiv.
  destruct (Z.eqb_spec d 0) as [E | _]; [lia |].
  destruct (Z.gtb_spec d 0) as [_ | Hle]; [| lia].
  destruct (Z.eqb_spec d 0) as [E | _]; [lia |].
  rewrite Z.quot_div_nonneg by lia.
  assert (0 <= 1024 / d <= 1024).
  { split; [apply Z.div_pos; lia |].
    apply Z.div_le_upper_bound; nia. }
  rewrite int16_small by lia. reflexivity.
Qed.

Lemma noteDuration_negative (d : Z) :
  -16384 < d < 0 -> noteDuration d = Some ((1024 * 3) / (Z.abs d * 2)).
Proof.
  intros H. unfold noteDuration, cdiv.
  destruct (Z.eqb_spec d 0) as [E | _]; [lia |].
  destruct (Z.gtb_spec d 0) as [Hgt | _]; [lia |].
  rewrite (int16_small (- d)) by lia.
  rewrite (int16_small (- d * 2)) by lia.
  rewrite (int16_small (1024 * 3)) by lia.
  destruct (Z.eqb_spec (- d * 2) 0) as [E | _]; [lia |].
  rewrite Z.quot_div_nonneg by lia.
  replace (Z.abs d) with (- d) by lia.
  assert (0 <= 1024 * 3 / (- d * 2) <= 3072).
  { split; [apply Z.div_pos; lia |].
    apply Z.div_le_upper_bound; nia. }
  rewrite int16_small by lia. reflexivity.
Qed.

Lemma noteDuration_spec (d : Z) :
  d <> 0 -> -16384 < d < 32768 ->
  noteDuration d = Some (spec_playbackLength d).
Proof.
  intros Hnz H. unfold spec_playbackLength.
  destruct (Z.ltb_spec 0 d).
  - apply noteDuration_positive. lia.
  - apply noteDuration_negative. lia.
Qed.

Lemma spec_playbackLength_range (d : Z) :
  d <> 0 -> 0 <= spec_playbackLength d <= 3072.
Proof.
  intros Hnz. unfold spec_playbackLength.
  destruct (Z.ltb_spec 0 d).
  - split; [apply Z.div_pos; lia |]. apply Z.div_le_upper_bound; nia.
  - split; [apply Z.div_pos; lia |]. apply Z.div_le_upper_bound; nia.
Qed.

(** ** One step of the melody player *)

Lemma table_lengths (m : Z) :
  Z.of_nat (length (tableDurations m)) = tableLength m /\
  Z.of_nat (length (tableNotes m)) = tableLength m.
Proof.
  unfold tableDurations, tableNotes, tableLength.
  destruct (m =? 0); split; reflexivity.
Qed.

Lemma tableDurations_small (m : Z) : Forall smallCode (tableDurations m).
Proof.
  unfold tableDurations. destruct (m =? 0).
  - exact melodyDurations_small.
  - exact melody2Durations_small.
Qed.

Lemma playNextNoteInMelody_inside (s : State) :
  0 <= curMelodyNote s < tableLength (whichMelody s) ->
  exists d note,
    aget (tableDurations (whichMelody s)) (curMelodyNote s) = Some d /\
    aget (tableNotes (whichMelody s)) (curMelodyNote s) = Some note /\
    smallCode d /\
    playNextNoteInMelody s = Some (afterNote note (spec_playbackLength d) s).
Proof.
  intros Hi.
  destruct (table_lengths (whichMelody s)) as [Ld Ln].
  destruct (aget_inside (tableDurations (whichMelody s)) (curMelodyNote s))
    as [d [Hd Hind]]; [lia |].
  destruct (aget_inside (tableNotes (whichMelody s)) (curMelodyNote s))
    as [note [Hn _]]; [lia |].
  assert (Hsmall : smallCode d).
  { pose proof (tableDurations_small (whichMelody s)) as F.
    rewrite Forall_forall in F. now apply F. }
  exists d, note. repeat split; try assumption; try apply Hsmall.
  assert (Hlen : noteDuration d = Some (spec_playbackLength d)).
  { destruct Hsmall. apply noteDuration_spec; lia. }
  assert (Hcur : int16 (curMelodyNote s + 1) = curMelodyNote s + 1).
  { apply int16_small.
    unfold tableLength, MELODY_LENGTH, MELODY2_LENGTH in Hi.
    destruct (whichMelody s =? 0); lia. }
  unfold playNextNoteInMelody, afterNote.
  unfold tableDurations, tableNotes, tableLength in *.
  destruct (whichMelody s =? 0) eqn:Em;
    rewrite Hd, Hn; cbn [bind]; rewrite Hlen; cbn [bind];
    destruct s; cbn in *; rewrite Hcur; cbn; rewrite ?Em; reflexivity.
Qed.

(** ** The frame [trainLights] draws *)

Lemma trainLights_frame (rnd : nat -> N) (s : State) :
  exists w c ms, 0 <= w < 3 /\ trainLights rnd s = afterFrame w c ms s.
Proof.
  pose proof (random_range (rnd 0%nat) 3 ltac:(lia)) as Hw.
  unfold trainLights.
  rewrite (int16_small (random (rnd 0%nat) 3)) by lia.
  set (w := random (rnd 0%nat) 3) in *.
  set (rgb := if w =? 2 then _ else _).
  destruct rgb as [[r g] b].
  exists w, (mkColor (uint8 r) (uint8 g) (uint8 b)),
    (10 + random (rnd 1%nat) 90).
  split; [exact Hw |].
  unfold afterFrame, setPixelColor.
  rewrite (uint16_small w) by lia.
  destruct (Z.ltb_spec w LED_COUNT) as [_ | Hge];
    [reflexivity | unfold LED_COUNT in Hge; lia].
Qed.

Lemma list_set_length {A : Type} (n : nat) (x : A) (l : list A) :
  length (list_set n x l) = length l.
Proof.
  revert n. induction l as [| h t IH]; intros [| n]; simpl; auto.
Qed.

Lemma list_set_same {A : Type} (n : nat) (x : A) (l : list A) :
  (n < length l)%nat -> nth_error (list_set n x l) n = Some x.
Proof.
  revert n. induction l as [| h t IH]; intros [| n] H; simpl in *;
    try lia; auto.
  apply IH. lia.
Qed.

Lemma list_set_other {A : Type} (n m : nat) (x : A) (l : list A) :
  n <> m -> nth_error (list_set n x l) m = nth_error l m.
Proof.
  revert n m. induction l as [| h t IH]; intros [| n] [| m] H; simpl;
    try reflexivity; try congruence.
  apply IH. congruence.
Qed.

(** ** Invariant lemmas *)

Ltac constants :=
  unfold NUM_CHUFFS, CHUFF_DELAY, FLICKERS_PER_SOUND, MELODY_LENGTH,
    MELODY2_LENGTH, WHISTLE_FADE, WHISTLE_INITIAL, WHISTLE_TRITONE,
    MOZZI_CHUFF, MOZZI_NOTE, MOZZI_WHISTLE, LED_COUNT in *.

Lemma wf_audioHook (h : Hook) (s : State) :
  wellFormed s -> wellFormed (audioHook h s).
Proof.
  intros [].
  destruct h as [| ready envelope]; [constructor; assumption |].
  unfold audioHook, updateControl.
  destruct ready; [| destruct (_ || _)];
    destruct s; constructor; cbn in *; auto.
Qed.

Lemma wf_afterNote (note len : Z) (s : State) :
  wellFormed s -> inMelody s = 1 ->
  wellFormed (afterNote note len (stopMozzi s)).
Proof.
  intros [] Hin.
  unfold afterNote.
  destruct s; cbn in *.
  specialize (wf_melody0 Hin).
  destruct (Z.geb_spec (curMelodyNote0 + 1) (tableLength whichMelody0));
    constructor; cbn; auto; try lia.
Qed.

Lemma wf_chuffNextChuff (s : State) :
  wellFormed s -> inMelody s <> 1 -> inChuffing s = 1 ->
  wellFormed (chuffNextChuff (stopMozzi s)).
Proof.
  intros [] Hm Hc.
  unfold chuffNextChuff, chuff.
  destruct s; cbn in *. constants.
  rewrite (int16_small (chuffDelay0 - 150)) by lia.
  destruct (Z.ltb_spec (chuffDelay0 - 150) 50); cbn;
    rewrite (int16_small (curChuff0 + 1)) by lia;
    destruct (Z.geb_spec (curChuff0 + 1) 15);
    constructor; cbn; constants; auto; try lia.
Qed.

(** ** The idle part of a pass *)

Ltac settle :=
  cbn; constants; intros; rewrite ?list_set_length; auto; try lia.

Lemma midPass_frame (w : Z) (c : Color) (ms : Z) (s : State) :
  wellFormed s -> inMelody s <> 1 -> inChuffing s <> 1 ->
  let s2 := afterFrame w c ms (whistleStep (stopMozzi s)) in
  midPass s2 /\
  inMelody s2 = 0 /\ inChuffing s2 = 0 /\
  (counter s mod FLICKERS_PER_SOUND = 0 -> inWhistle s2 = 0) /\
  counter s2 = counter s /\ whichSound s2 = whichSound s /\
  launchCalls (calls s2) = launchCalls (calls s).
Proof.
  intros [] Hm Hc.
  unfold afterFrame, whistleStep, nextWhistle, whistle.
  destruct s; cbn in *.
  destruct (Z.eqb_spec inWhistle0 1) as [Hw | Hw].
  - destruct (wf_whistle0 Hw) as [Hcw Hmod]. constants.
    assert (Hcases : curWhistle0 = 1 \/ curWhistle0 = 2) by lia.
    destruct Hcases as [-> | ->]; cbn;
      (split; [constructor | repeat split]); settle.
  - cbn. (split; [constructor | repeat split]); settle.
Qed.

Lemma launchSound_midPass (s : State) :
  midPass s ->
  inMelody s = 0 -> inChuffing s = 0 -> inWhistle s = 0 ->
  counter s mod FLICKERS_PER_SOUND = 0 ->
  exists s',
    launchSound s = Some s' /\
    midPass s' /\
    counter s' = counter s /\
    whichSound s' = nextIndex (whichSound s) /\
    launchCalls (calls s') = soundAt (whichSound s) :: launchCalls (calls s).
Proof.
  intros [] Hm Hc Hw Hmod.
  assert (Hws : whichSound s = 0 \/ whichSound s = 1 \/ whichSound s = 2 \/
                whichSound s = 3 \/ whichSound s = 4) by lia.
  destruct s; cbn in *; subst.
  destruct Hws as [-> | [-> | [-> | [-> | ->]]]];
    eexists; (split; [vm_compute; reflexivity |]);
    (split; [constructor | repeat split]); settle.
Qed.

Lemma bump_wellFormed (s : State) :
  midPass s ->
  wellFormed (bump s) /\
  whichSound (bump s) = whichSound s /\
  launchCalls (calls (bump s)) = launchCalls (calls s).
Proof.
  intros []. unfold bump.
  destruct s; cbn in *.
  rewrite (uint32_small (counter0 + 1)) by lia.
  destruct (Z.gtb_spec (counter0 + 1) 32000);
    (split; [constructor | split]); settle.
Qed.

(** ** One pass through [loop] *)

Lemma audioHook_silent (h : Hook) (s : State) :
  whichSound (audioHook h s) = whichSound s /\
  calls (audioHook h s) = calls s /\
  pixels (audioHook h s) = pixels s /\
  shown (audioHook h s) = shown s /\
  whichMelody (audioHook h s) = whichMelody s.
Proof.
  destruct h as [| ready envelope]; [repeat split |].
  unfold audioHook, updateControl.
  destruct ready; [| destruct (_ || _)]; repeat split.
Qed.

Lemma afterNote_silent (note len : Z) (s : State) :
  whichSound (afterNote note len s) = whichSound s /\
  calls (afterNote note len s) = C_playNote note len :: calls s /\
  pixels (afterNote note len s) = pixels s /\
  shown (afterNote note len s) = shown s /\
  whichMelody (afterNote note len s) = whichMelody s.
Proof.
  unfold afterNote.
  destruct (_ >=? _); repeat split.
Qed.

Lemma chuffNextChuff_silent (s : State) :
  whichSound (chuffNextChuff s) = whichSound s /\
  calls (chuffNextChuff s) = C_chuff :: calls s /\
  pixels (chuffNextChuff s) = pixels s /\
  shown (chuffNextChuff s) = shown s.
Proof.
  unfold chuffNextChuff, chuff.
  destruct s; cbn.
  destruct (_ <? _); cbn; destruct (_ >=? _); repeat split.
Qed.

Lemma loop_wellFormed (i : Input) (s : State) :
  wellFormed s ->
  exists s', loop i s = Some s' /\ wellFormed s' /\ passEffect s s'.
Proof.
  intros Hwf. unfold loop.
  destruct (Z.eqb_spec (inMozzi s) 1) as [Hz | Hz].
  { exists (audioHook (hook i) s). split; [reflexivity |].
    split; [now apply wf_audioHook |].
    left. destruct (audioHook_silent (hook i) s) as (-> & -> & _).
    repeat split. lia. }
  cbv zeta.
  change (inMelody (stopMozzi s)) with (inMelody s).
  change (inChuffing (stopMozzi s)) with (inChuffing s).
  destruct (Z.eqb_spec (inMelody s) 1) as [Hm | Hm].
  { destruct (playNextNoteInMelody_inside (stopMozzi s))
      as (d & note & _ & _ & _ & ->).
    { apply (wf_melody _ s Hwf Hm). }
    eexists. split; [reflexivity |].
    split; [now apply wf_afterNote |].
    left. destruct (afterNote_silent note (spec_playbackLength d) (stopMozzi s))
      as (-> & -> & _).
    repeat split. lia. }
  destruct (Z.eqb_spec (inChuffing s) 1) as [Hc | Hc].
  { eexists. split; [reflexivity |].
    split; [now apply wf_chuffNextChuff |].
    left. destruct (chuffNextChuff_silent (stopMozzi s)) as (-> & -> & _).
    repeat split. lia. }
  change (if inWhistle (stopMozzi s) =? 1
          then nextWhistle (stopMozzi s) else stopMozzi s)
    with (whistleStep (stopMozzi s)).
  destruct (trainLights_frame (rnd i) (whistleStep (stopMozzi s)))
    as (w & c & ms & _ & ->).
  destruct (midPass_frame w c ms s Hwf Hm Hc)
    as (Hmid & Hm2 & Hc2 & Hw2 & Hcnt & Hws & Hcalls).
  set (s2 := afterFrame w c ms (whistleStep (stopMozzi s))) in *.
  destruct (Z.eqb_spec (counter s2 mod FLICKERS_PER_SOUND) 0) as [Hmod | Hmod].
  - assert (Hw2' : inWhistle s2 = 0) by (apply Hw2; congruence).
    destruct (launchSound_midPass s2 Hmid Hm2 Hc2 Hw2' Hmod)
      as (s3 & -> & Hmid3 & Hcnt3 & Hws3 & Hcalls3).
    cbn [bind].
    destruct (bump_wellFormed s3 Hmid3) as (Hwf4 & Hws4 & Hcalls4).
    exists (bump s3). split; [reflexivity |]. split; [exact Hwf4 |].
    right.
    rewrite Hws4, Hcalls4, Hws3, Hcalls3, Hws, Hcalls.
    rewrite Hcnt in Hmod.
    assert (Hw : inWhistle s = 0).
    { destruct (wf_inWhistle _ s Hwf) as [E | E]; [exact E |].
      destruct (wf_whistle _ s Hwf E). lia. }
    pose proof (wf_inMozzi _ s Hwf). pose proof (wf_inMelody _ s Hwf).
    pose proof (wf_inChuffing _ s Hwf).
    repeat split; try lia.
  - cbn [bind].
    destruct (bump_wellFormed s2 Hmid) as (Hwf4 & Hws4 & Hcalls4).
    exists (bump s2). split; [reflexivity |]. split; [exact Hwf4 |].
    left. rewrite Hws4, Hcalls4, Hws, Hcalls.
    repeat split. rewrite <- Hcnt. tauto.
Qed.

(** ** Reachable states are well formed *)

Lemma setup_powerOn : setup powerOn = Some afterSetup.
Proof. vm_compute. reflexivity. Qed.

Lemma afterSetup_wellFormed : wellFormed afterSetup.
Proof. constructor; cbn; constants; intros; lia. Qed.

Lemma reachable_wellFormed (s : State) : reachable s -> wellFormed s.
Proof.
  induction 1 as [s Hs | s i s' _ IH Hloop].
  - rewrite setup_powerOn in Hs. injection Hs as <-.
    exact afterSetup_wellFormed.
  - destruct (loop_wellFormed i s IH) as (s'' & E & Hwf & _).
    rewrite E in Hloop. now injection Hloop as <-.
Qed.

(** No pass out of a reachable state runs into undefined behaviour. *)
Lemma loop_total (i : Input) (s : State) :
  reachable s -> exists s', loop i s = Some s' /\ reachable s'.
Proof.
  intros Hr.
  destruct (loop_wellFormed i s (reachable_wellFormed s Hr)) as (s' & E & _).
  exists s'. split; [exact E |]. now apply reach_loop with s i.
Qed.

Lemma run_reachable (inputs : list Input) (s s' : State) :
  reachable s -> run inputs s = Some s' -> reachable s'.
Proof.
  revert s. induction inputs as [| i rest IH]; intros s Hr Hrun; cbn in Hrun.
  - now injection Hrun as <-.
  - destruct (loop i s) as [s1 |] eqn:E; cbn in Hrun; [| discriminate].
    apply (IH s1); [| exact Hrun]. now apply reach_loop with s i.
Qed.

Lemma runSame_succ (n : N) (i : Input) (s : State) :
  runSame (N.succ n) i s = (s' <- runSame n i s ;; loop i s').
Proof. unfold runSame. now rewrite N.iter_succ. Qed.

Lemma runSame_reachable (n : N) (i : Input) (s s' : State) :
  reachable s -> runSame n i s = Some s' -> reachable s'.
Proof.
  intros Hr. revert s'.
  induction n as [| n IH] using N.peano_ind; intros s' Hrun.
  - cbn in Hrun. now injection Hrun as <-.
  - rewrite runSame_succ in Hrun.
    destruct (runSame n i s) as [s1 |]; cbn in Hrun; [| discriminate].
    apply reach_loop with s1 i; [now apply IH | exact Hrun].
Qed.

Lemma runSame_add (n m : N) (i : Input) (s : State) :
  runSame (n + m) i s = (s' <- runSame m i s ;; runSame n i s').
Proof.
  induction n as [| n IH] using N.peano_ind.
  - cbn. destruct (runSame m i s); reflexivity.
  - rewrite N.add_succ_l, !runSame_succ, IH.
    destruct (runSame m i s) as [s1 |]; cbn; [| reflexivity].
    now rewrite runSame_succ.
Qed.

(** ** Evaluating runs *)

Lemma afterSetup_reachable : reachable afterSetup.
Proof. apply reach_setup. exact setup_powerOn. Qed.

Lemma bind_Some {A B : Type} (m : option A) (f : A -> option B) (y : B) :
  bind m f = Some y -> exists x, m = Some x /\ f x = Some y.
Proof.
  destruct m as [x |]; cbn; intros H; [| discriminate H].
  exists x. split; [reflexivity | exact H].
Qed.

(** Reading a fact off the result of a run, by evaluating the run. *)
Lemma run_yields {S A : Type} (o : option S) (f : S -> A) (v : A) :
  option_map f o = Some v -> exists s, o = Some s /\ f s = v.
Proof.
  destruct o as [s |]; cbn; intros H; [| discriminate H].
  exists s. split; [reflexivity |]. now injection H.
Qed.

(** ** C1: the sub-machines exclude one another *)

(** C1, as stated, fails.  One pass after [setup] the first note of the
    start-up melody has ended and the second has not begun: Melody is the
    one active sub-machine and [inMozzi] is 0.  After 58 passes the last
    note is sounding: [inMozzi] is 1 and no sub-machine is active. *)
Lemma busy_flag_is_not_activity :
  (exists s, loop quiet afterSetup = Some s /\ reachable s /\
             activeCount s = 1 /\ inMozzi s = 0) /\
  (exists s, runSame 58 quiet afterSetup = Some s /\ reachable s /\
             activeCount s = 0 /\ inMozzi s = 1).
Proof.
  split.
  - destruct (run_yields (loop quiet afterSetup)
                (fun s => (activeCount s, inMozzi s)) (1, 0))
      as (s & E & Hs); [vm_compute; reflexivity |].
    exists s. split; [exact E |]. split.
    + apply reach_loop with afterSetup quiet; [| exact E].
      exact afterSetup_reachable.
    + injection Hs as -> ->. split; reflexivity.
  - destruct (run_yields (runSame 58 quiet afterSetup)
                (fun s => (activeCount s, inMozzi s)) (0, 1))
      as (s & E & Hs); [vm_compute; reflexivity |].
    exists s. split; [exact E |]. split.
    + apply runSame_reachable with 58%N quiet afterSetup; [| exact E].
      exact afterSetup_reachable.
    + injection Hs as -> ->. split; reflexivity.
Qed.

(** C1, amended: in every reachable state at most one sub-machine is active;
    some active flag is set iff exactly one is; and a pass that launches a
    sound -- the announcement among them -- starts with nothing active and
    nothing sounding. *)
Theorem sound_machines_exclusive (s : State) :
  reachable s ->
  activeCount s <= 1 /\
  ((inMelody s = 1 \/ inChuffing s = 1 \/ inWhistle s = 1) <->
   activeCount s = 1) /\
  (forall i s',
      loop i s = Some s' ->
      launchCalls (calls s') <> launchCalls (calls s) ->
      activeCount s = 0 /\ inMozzi s = 0).
Proof.
  intros Hr. pose proof (reachable_wellFormed s Hr) as Hwf.
  pose proof (wf_inMelody _ s Hwf) as Hm.
  pose proof (wf_inChuffing _ s Hwf) as Hc.
  pose proof (wf_inWhistle _ s Hwf) as Hw.
  pose proof (wf_exclusive _ s Hwf) as Hx.
  unfold activeCount, active.
  repeat split.
  - destruct (Z.eqb_spec (inMelody s) 1), (Z.eqb_spec (inChuffing s) 1),
      (Z.eqb_spec (inWhistle s) 1); lia.
  - destruct (Z.eqb_spec (inMelody s) 1), (Z.eqb_spec (inChuffing s) 1),
      (Z.eqb_spec (inWhistle s) 1); lia.
  - destruct (Z.eqb_spec (inMelody s) 1), (Z.eqb_spec (inChuffing s) 1),
      (Z.eqb_spec (inWhistle s) 1); lia.
  - destruct (loop_wellFormed i s Hwf) as (s'' & E & _ & Heff).
    rewrite E in H. injection H as <-.
    destruct Heff as [(_ & _ & Hsame) | (_ & -> & -> & -> & _)];
      [contradiction | reflexivity].
  - destruct (loop_wellFormed i s Hwf) as (s'' & E & _ & Heff).
    rewrite E in H. injection H as <-.
    destruct Heff as [(_ & _ & Hsame) | (Hz & _)];
      [contradiction | exact Hz].
Qed.

Lemma sound_machines_exclusive_witness :
  reachable afterSetup /\
  activeCount afterSetup <= 1 /\
  ((inMelody afterSetup = 1 \/ inChuffing afterSetup = 1 \/
    inWhistle afterSetup = 1) <-> activeCount afterSetup = 1) /\
  (forall i s',
      loop i afterSetup = Some s' ->
      launchCalls (calls s') <> launchCalls (calls afterSetup) ->
      activeCount afterSetup = 0 /\ inMozzi afterSetup = 0).
Proof.
  split.
  - apply reach_setup. vm_compute. reflexivity.
  - apply (sound_machines_exclusive afterSetup).
    apply reach_setup. vm_compute. reflexivity.
Defined.

(** ** C7: a melody runs for exactly the length of its table *)

Lemma startMelody_unfold (s : State) :
  startMelody s = playNextNoteInMelody (melodyReset s).
Proof. reflexivity. Qed.

Lemma melodyReset_fields (s : State) :
  inMelody (melodyReset s) = 1 /\
  curMelodyNote (melodyReset s) = 0 /\
  tableLength (whichMelody (melodyReset s)) = tableLength (whichSound s).
Proof.
  unfold melodyReset. destruct s; cbn.
  destruct (Z.gtb_spec whichSound0 0) as [Hpos | Hle]; cbn;
    repeat split.
  unfold tableLength.
  destruct (Z.eqb_spec whichSound0 0); [lia | reflexivity].
Qed.

Lemma afterNote_fields (note len : Z) (s : State) :
  let last := curMelodyNote s + 1 >=? tableLength (whichMelody s) in
  inMelody (afterNote note len s) = (if last then 0 else inMelody s) /\
  curMelodyNote (afterNote note len s) =
    (if last then 0 else curMelodyNote s + 1) /\
  aSinFreq (afterNote note len s) = note /\
  kDelayMs (afterNote note len s) = uint16 len /\
  inMozzi (afterNote note len s) = 1.
Proof.
  unfold afterNote. cbv zeta.
  destruct (_ >=? _); repeat split.
Qed.

Lemma melodyAfter_progress (s : State) (k : nat) :
  Z.of_nat k + 1 <= tableLength (whichSound s) ->
  exists s',
    melodyAfter k s = Some s' /\
    tableLength (whichMelody s') = tableLength (whichSound s) /\
    (Z.of_nat k + 1 < tableLength (whichSound s) ->
     inMelody s' = 1 /\ curMelodyNote s' = Z.of_nat k + 1) /\
    (Z.of_nat k + 1 = tableLength (whichSound s) -> inMelody s' = 0).
Proof.
  assert (Hlen : 30 <= tableLength (whichSound s)).
  { unfold tableLength. destruct (_ =? _); constants; lia. }
  induction k as [| k IH]; intros Hk.
  - cbn [melodyAfter]. rewrite startMelody_unfold.
    destruct (melodyReset_fields s) as (Hin & Hcur & Htab).
    destruct (playNextNoteInMelody_inside (melodyReset s))
      as (d & note & _ & _ & _ & ->); [lia |].
    eexists. split; [reflexivity |].
    destruct (afterNote_fields note (spec_playbackLength d) (melodyReset s))
      as (Hi & Hc & _).
    destruct (afterNote_silent note (spec_playbackLength d) (melodyReset s))
      as (_ & _ & _ & _ & Hwm).
    rewrite Hi, Hc, Hwm, Hcur, Hin, Htab.
    destruct (Z.geb_spec (0 + 1) (tableLength (whichSound s)));
      repeat split; intros; lia.
  - destruct IH as (s1 & E1 & Htab & Hbefore & _); [lia |].
    destruct Hbefore as [Hin Hcur]; [lia |].
    cbn [melodyAfter]. rewrite E1. cbn [bind].
    destruct (playNextNoteInMelody_inside s1)
      as (d & note & _ & _ & _ & ->); [lia |].
    eexists. split; [reflexivity |].
    destruct (afterNote_fields note (spec_playbackLength d) s1)
      as (Hi & Hc & _).
    destruct (afterNote_silent note (spec_playbackLength d) s1)
      as (_ & _ & _ & _ & Hwm).
    rewrite Hi, Hc, Hwm, Hcur, Hin, Htab.
    destruct (Z.geb_spec (Z.of_nat k + 1 + 1) (tableLength (whichSound s)));
      repeat split; intros; lia.
Qed.

(** C7.  A melody launched from any state plays a table of length [L] (30
    for the first melody, 43 for the second): the launch and every further
    step up to the [L]-th succeed, [inMelody] is still 1 after fewer than
    [L] steps and 0 after the [L]-th. *)
Theorem melody_ends_on_last_note (s : State) (n : nat) :
  1 <= Z.of_nat n <= tableLength (whichSound s) ->
  exists s',
    melodyAfter (n - 1) s = Some s' /\
    inMelody s' = (if Z.of_nat n <? tableLength (whichSound s) then 1 else 0).
Proof.
  intros Hn.
  destruct (melodyAfter_progress s (n - 1)) as (s' & E & _ & Hlt & Heq);
    [lia |].
  exists s'. split; [exact E |].
  destruct (Z.ltb_spec (Z.of_nat n) (tableLength (whichSound s))).
  - apply Hlt. lia.
  - apply Heq. lia.
Qed.

Lemma melody_ends_on_last_note_witness :
  1 <= Z.of_nat 30 <= tableLength (whichSound powerOn) /\
  exists s',
    melodyAfter (30 - 1) powerOn = Some s' /\
    inMelody s' =
      (if Z.of_nat 30 <? tableLength (whichSound powerOn) then 1 else 0).
Proof.
  split.
  - vm_compute. split; discriminate.
  - apply (melody_ends_on_last_note powerOn 30).
    vm_compute. split; discriminate.
Defined.

(** ** C8: what a step of the melody player renders *)

(** What a step of the melody player leaves alone, whether or not its
    note index is inside the table. *)
Lemma playNextNoteInMelody_frame (s s' : State) :
  playNextNoteInMelody s = Some s' ->
  whichMelody s' = whichMelody s /\
  pixels s' = pixels s /\ shown s' = shown s.
Proof.
  unfold playNextNoteInMelody.
  destruct (whichMelody s =? 0);
    [destruct (aget melodyDurations (curMelodyNote s)) as [d |],
              (aget melody (curMelodyNote s)) as [note |]
    |destruct (aget melody2Durations (curMelodyNote s)) as [d |],
              (aget melody2 (curMelodyNote s)) as [note |]];
    cbn; try discriminate;
    destruct (noteDuration d) as [len |]; cbn; try discriminate;
    destruct (_ >=? _); intros E; injection E as <-; repeat split.
Qed.

Lemma loop_keeps_table (i : Input) (s s' : State) :
  inMelody s = 1 -> loop i s = Some s' -> whichMelody s' = whichMelody s.
Proof.
  intros Hm. unfold loop.
  destruct (inMozzi s =? 1).
  - intros E. injection E as <-.
    now destruct (audioHook_silent (hook i) s) as (_ & _ & _ & _ & ->).
  - cbv zeta. change (inMelody (stopMozzi s)) with (inMelody s).
    rewrite Hm. cbn [Z.eqb Pos.eqb].
    intros E. now apply playNextNoteInMelody_frame in E.
Qed.

(** C8.  A step at a note index inside the table of the melody chosen at
    launch reads the duration code [d] and the pitch [note] at that index
    of that table, and renders [note] for [1024 / d] milliseconds if [d] is
    positive and for [(1024 * 3) / (|d| * 2)] if it is negative: that is
    the call of [playNote], the frequency of the sine oscillator and the
    time given to [kDelay].  The step leaves the choice of table alone, and
    so does every pass through [loop] while the melody is active. *)
Theorem melody_note_rendered (s : State) :
  0 <= curMelodyNote s < tableLength (whichMelody s) ->
  exists d note len s',
    aget (tableDurations (whichMelody s)) (curMelodyNote s) = Some d /\
    aget (tableNotes (whichMelody s)) (curMelodyNote s) = Some note /\
    d <> 0 /\
    (0 < d -> len = 1024 / d) /\
    (d < 0 -> len = (1024 * 3) / (Z.abs d * 2)) /\
    playNextNoteInMelody s = Some s' /\
    calls s' = C_playNote note len :: calls s /\
    aSinFreq s' = note /\
    kDelayMs s' = len /\
    whichMelody s' = whichMelody s /\
    (forall i s'',
        inMelody s = 1 -> loop i s = Some s'' ->
        whichMelody s'' = whichMelody s).
Proof.
  intros Hi.
  destruct (playNextNoteInMelody_inside s Hi)
    as (d & note & Hd & Hn & [Hnz Hsmall] & E).
  exists d, note, (spec_playbackLength d),
    (afterNote note (spec_playbackLength d) s).
  destruct (afterNote_fields note (spec_playbackLength d) s)
    as (_ & _ & Hfreq & Hms & _).
  destruct (afterNote_silent note (spec_playbackLength d) s)
    as (_ & Hcalls & _ & _ & Hwm).
  pose proof (spec_playbackLength_range d Hnz) as Hrange.
  rewrite uint16_small in Hms by lia.
  repeat split; try assumption.
  - intros Hpos. unfold spec_playbackLength.
    destruct (Z.ltb_spec 0 d); [reflexivity | lia].
  - intros Hneg. unfold spec_playbackLength.
    destruct (Z.ltb_spec 0 d); [lia | reflexivity].
  - intros i s'' Hm Hloop. now apply loop_keeps_table with i.
Qed.

Lemma melody_note_rendered_witness :
  0 <= curMelodyNote afterSetup < tableLength (whichMelody afterSetup) /\
  exists d note len s',
    aget (tableDurations (whichMelody afterSetup)) (curMelodyNote afterSetup)
      = Some d /\
    aget (tableNotes (whichMelody afterSetup)) (curMelodyNote afterSetup)
      = Some note /\
    d <> 0 /\
    (0 < d -> len = 1024 / d) /\
    (d < 0 -> len = (1024 * 3) / (Z.abs d * 2)) /\
    playNextNoteInMelody afterSetup = Some s' /\
    calls s' = C_playNote note len :: calls afterSetup /\
    aSinFreq s' = note /\
    kDelayMs s' = len /\
    whichMelody s' = whichMelody afterSetup /\
    (forall i s'',
        inMelody afterSetup = 1 -> loop i afterSetup = Some s'' ->
        whichMelody s'' = whichMelody afterSetup).
Proof.
  split.
  - vm_compute. split; [discriminate | reflexivity].
  - apply (melody_note_rendered afterSetup).
    vm_compute. split; [discriminate | reflexivity].
Defined.

(** ** C10: the guard against a zero duration code *)

Lemma noteDuration_total (d : Z) :
  -32768 < d < 32768 -> exists len, noteDuration d = Some len.
Proof.
  intros Hd. unfold noteDuration, cdiv.
  destruct (Z.eqb_spec d 0) as [-> | Hnz].
  - cbn. eexists. reflexivity.
  - destruct (Z.gtb_spec d 0) as [Hpos | Hneg].
    + destruct (Z.eqb_spec d 0); [lia |]. eexists. reflexivity.
    + rewrite (int16_small (- d)) by lia.
      destruct (Z.eqb_spec (int16 (- d * 2)) 0) as [E | _].
      * unfold int16 in E. lia.
      * eexists. reflexivity.
Qed.

(** C10.  A stored duration code of 0 is converted as the code 1 is, to
    1024 milliseconds; for no code an [int] can hold, its least value
    apart, does the conversion divide by zero; and the step succeeds at
    every note index of either melody. *)
Theorem zero_duration_code_guarded (d : Z) (s : State) :
  -32768 < d < 32768 ->
  0 <= curMelodyNote s < tableLength (whichMelody s) ->
  noteDuration 0 = noteDuration 1 /\
  noteDuration 0 = Some 1024 /\
  (exists len, noteDuration d = Some len) /\
  (exists s', playNextNoteInMelody s = Some s').
Proof.
  intros Hd Hi. repeat split.
  - now apply noteDuration_total.
  - destruct (playNextNoteInMelody_inside s Hi) as (d' & note & _ & _ & _ & E).
    eexists. exact E.
Qed.

Lemma zero_duration_code_guarded_witness :
  -32768 < 0 < 32768 /\
  0 <= curMelodyNote afterSetup < tableLength (whichMelody afterSetup) /\
  noteDuration 0 = noteDuration 1 /\
  noteDuration 0 = Some 1024 /\
  (exists len, noteDuration 0 = Some len) /\
  (exists s', playNextNoteInMelody afterSetup = Some s').
Proof.
  split; [lia |].
  split; [vm_compute; split; [discriminate | reflexivity] |].
  apply (zero_duration_code_guarded 0 afterSetup).
  - lia.
  - vm_compute. split; [discriminate | reflexivity].
Defined.

(** ** C6: the pulses close up *)

Lemma startChuffing_unfold (s : State) :
  startChuffing s = chuffNextChuff (chuffReset s).
Proof. reflexivity. Qed.

Lemma chuffNextChuff_delay (s : State) :
  50 <= chuffDelay s <= 1100 ->
  chuffDelay (chuffNextChuff s) = Z.max 50 (chuffDelay s - 150) /\
  kDelayMs (chuffNextChuff s) = 1000 + chuffDelay s.
Proof.
  intros Hd. unfold chuffNextChuff, chuff.
  destruct s; cbn in *.
  rewrite (int16_small (chuffDelay0 - 150)) by lia.
  destruct (Z.ltb_spec (chuffDelay0 - 150) 50); cbn;
    destruct (_ >=? _); cbn;
    rewrite (uint16_small (1000 + chuffDelay0)) by lia; split; lia.
Qed.

(** C6.  After [k] pulses of a launch, for every [k] up to the number of
    pulses, the delay between pulses is [max 50 (1100 - 150 k)]: 1100
    before the first pulse, 50 after the seventh and after the tenth.  That
    delay, on top of the pulse's own 1000 milliseconds, is what the next
    pulse hands to the timer. *)
Theorem chuff_delay_after_pulses (s : State) (k : nat) :
  Z.of_nat k <= NUM_CHUFFS ->
  chuffDelay (chuffPulses k s) = Z.max 50 (CHUFF_DELAY - 150 * Z.of_nat k) /\
  kDelayMs (chuffPulses (S k) s) =
    1000 + Z.max 50 (CHUFF_DELAY - 150 * Z.of_nat k) /\
  chuffDelay (chuffPulses 0 s) = 1100 /\
  chuffDelay (chuffPulses 7 s) = 50 /\
  chuffDelay (chuffPulses 10 s) = 50.
Proof.
  intros _.
  assert (Hall : forall j,
             chuffDelay (chuffPulses j s)
             = Z.max 50 (CHUFF_DELAY - 150 * Z.of_nat j)).
  { induction j as [| j IH].
    - reflexivity.
    - cbn [chuffPulses].
      destruct (chuffNextChuff_delay (chuffPulses j s)) as [-> _].
      + rewrite IH. constants. lia.
      + rewrite IH. constants. lia. }
  split; [apply Hall |]. split.
  - cbn [chuffPulses].
    destruct (chuffNextChuff_delay (chuffPulses k s)) as [_ ->].
    + rewrite Hall. constants. lia.
    + now rewrite Hall.
  - rewrite !Hall. repeat split.
Qed.

Lemma chuff_delay_after_pulses_witness :
  Z.of_nat 15 <= NUM_CHUFFS /\
  chuffDelay (chuffPulses 15 powerOn)
    = Z.max 50 (CHUFF_DELAY - 150 * Z.of_nat 15) /\
  kDelayMs (chuffPulses (S 15) powerOn) =
    1000 + Z.max 50 (CHUFF_DELAY - 150 * Z.of_nat 15) /\
  chuffDelay (chuffPulses 0 powerOn) = 1100 /\
  chuffDelay (chuffPulses 7 powerOn) = 50 /\
  chuffDelay (chuffPulses 10 powerOn) = 50.
Proof.
  split.
  - vm_compute. discriminate.
  - apply (chuff_delay_after_pulses powerOn 15). vm_compute. discriminate.
Defined.

(** ** C3: the stages of the whistle *)

Lemma whistleStages_app (l1 l2 : list Call) :
  whistleStages (l1 ++ l2) = whistleStages l1 ++ whistleStages l2.
Proof.
  induction l1 as [| c l1 IH]; [reflexivity |].
  destruct c; cbn; rewrite IH; reflexivity.
Qed.

Lemma whistle_once (s : State) :
  let s' := whistleToEnd 4 (startWhistle s) in
  inWhistle s' = 0 /\
  calls s' =
    [C_whistle WHISTLE_FADE; C_whistle WHISTLE_TRITONE;
     C_whistle WHISTLE_INITIAL; C_startWhistle] ++ calls s.
Proof.
  destruct s. vm_compute. split; reflexivity.
Qed.

(** C3, as stated, fails: the whistle launched at power-on plays three
    stages and ends; the stage [WHISTLE_DUD] is not among them. *)
Lemma whistle_has_no_silent_stage :
  whistleStages (history (whistleToEnd 4 (startWhistle powerOn)))
  = [WHISTLE_INITIAL; WHISTLE_TRITONE; WHISTLE_FADE] /\
  whistleStages (history (whistleToEnd 4 (startWhistle powerOn)))
  <> [WHISTLE_INITIAL; WHISTLE_TRITONE; WHISTLE_FADE; WHISTLE_DUD].
Proof.
  split; [vm_compute; reflexivity | vm_compute; discriminate].
Qed.

(** C3, amended.  Every launch of the whistle plays exactly the stages
    Initial, Combined, Fade, in that order, and is inactive after the
    third; so do any number of launches one after the other. *)
Theorem whistle_stage_order (n : nat) (s : State) :
  inWhistle (whistles (S n) s) = 0 /\
  whistleStages (history (whistles n s)) =
    whistleStages (history s) ++
    concat (repeat [WHISTLE_INITIAL; WHISTLE_TRITONE; WHISTLE_FADE] n).
Proof.
  split.
  - cbn [whistles]. apply whistle_once.
  - induction n as [| n IH].
    + cbn. now rewrite app_nil_r.
    + cbn [whistles repeat concat].
      destruct (whistle_once (whistles n s)) as [_ Hcalls].
      unfold history in *. rewrite Hcalls.
      rewrite rev_app_distr, whistleStages_app, IH.
      rewrite <- app_assoc. f_equal.
      clear. induction n as [| n IHn]; [reflexivity |].
      cbn [repeat concat]. rewrite <- app_assoc, <- IHn. reflexivity.
Qed.

(** The first whistle [loop] launches after power-on, stepped by [loop]
    itself, plays the same three stages. *)
Lemma whistle_in_the_loop :
  option_map (fun s => whistleStages (rev' (calls s)))
    (runSame 1378 quiet afterSetup)
  = Some [WHISTLE_INITIAL; WHISTLE_TRITONE; WHISTLE_FADE].
Proof. vm_compute. reflexivity. Qed.

(** ** C9: a frame writes one zone *)

(** C9.  A frame of [trainLights] calls [setPixelColor] once, for a zone [w]
    among 0, 1, 2, and then [show]: zone [w] holds the new colour and the
    two other zones hold what they held before the frame. *)
Theorem frame_writes_one_zone (rnd : nat -> N) (s : State) :
  length (pixels s) = 3%nat ->
  exists w c ms,
    0 <= w < 3 /\
    calls (trainLights rnd s) =
      C_show :: C_setPixelColor w c :: C_delay ms :: calls s /\
    nth_error (pixels (trainLights rnd s)) (Z.to_nat w) = Some c /\
    (forall j, j <> Z.to_nat w ->
               nth_error (pixels (trainLights rnd s)) j
               = nth_error (pixels s) j) /\
    shown (trainLights rnd s) = pixels (trainLights rnd s).
Proof.
  intros Hlen.
  destruct (trainLights_frame rnd s) as (w & c & ms & Hw & ->).
  exists w, c, ms. unfold afterFrame. destruct s; cbn in *.
  repeat split; try lia.
  - apply list_set_same. lia.
  - intros j Hj. apply list_set_other. congruence.
Qed.

Lemma frame_writes_one_zone_witness :
  length (pixels afterSetup) = 3%nat /\
  exists w c ms,
    0 <= w < 3 /\
    calls (trainLights (fun _ => 2%N) afterSetup) =
      C_show :: C_setPixelColor w c :: C_delay ms :: calls afterSetup /\
    nth_error (pixels (trainLights (fun _ => 2%N) afterSetup)) (Z.to_nat w)
      = Some c /\
    (forall j, j <> Z.to_nat w ->
               nth_error (pixels (trainLights (fun _ => 2%N) afterSetup)) j
               = nth_error (pixels afterSetup) j) /\
    shown (trainLights (fun _ => 2%N) afterSetup)
      = pixels (trainLights (fun _ => 2%N) afterSetup).
Proof.
  split.
  - reflexivity.
  - apply (frame_writes_one_zone (fun _ => 2%N) afterSetup). reflexivity.
Defined.

(** ** C2: the lights while a sound is made *)

(** The lights hold while a tone sounds and while the melody or the pulse
    sequence is stepped. *)
Lemma lights_hold_outside_whistle (i : Input) (s s' : State) :
  inMozzi s = 1 \/ inMelody s = 1 \/ inChuffing s = 1 ->
  loop i s = Some s' ->
  pixels s' = pixels s /\ shown s' = shown s.
Proof.
  intros Hbusy. unfold loop.
  destruct (Z.eqb_spec (inMozzi s) 1) as [Hz | Hz].
  { intros E. injection E as <-.
    destruct (audioHook_silent (hook i) s) as (_ & _ & -> & -> & _).
    split; reflexivity. }
  cbv zeta.
  change (inMelody (stopMozzi s)) with (inMelody s).
  change (inChuffing (stopMozzi s)) with (inChuffing s).
  destruct (Z.eqb_spec (inMelody s) 1) as [Hm | Hm].
  { intros E. apply playNextNoteInMelody_frame in E. tauto. }
  destruct (Z.eqb_spec (inChuffing s) 1) as [Hc | Hc].
  { intros E. injection E as <-.
    destruct (chuffNextChuff_silent (stopMozzi s)) as (_ & _ & -> & ->).
    split; reflexivity. }
  lia.
Qed.

(** C2 fails on the code.  1374 passes after [setup] the first stage of the
    whistle has ended: the whistle is active, at its second stage, and zone
    2 has been dark since power-on.  The next pass steps the whistle and,
    [loop] not returning after [nextWhistle] as it does after the steps of
    the two other sub-machines, goes on to draw a frame: zone 2 changes
    colour while the whistle is active. *)
Theorem whistle_step_changes_lights :
  exists s s',
    runSame 1374 quiet afterSetup = Some s /\
    reachable s /\
    inWhistle s = 1 /\ activeCount s = 1 /\
    loop flash s = Some s' /\
    inWhistle s' = 1 /\
    nth_error (pixels s) 2 = Some black /\
    nth_error (pixels s') 2 = Some (mkColor 202 84 84).
Proof.
  destruct (run_yields
              (s <- runSame 1374 quiet afterSetup ;;
               s' <- loop flash s ;; Some (s, s'))
              (fun p => (inWhistle (fst p), activeCount (fst p),
                         inWhistle (snd p),
                         nth_error (pixels (fst p)) 2,
                         nth_error (pixels (snd p)) 2))
              (1, 1, 1, Some black, Some (mkColor 202 84 84)))
    as ([s s'] & E & Hs); [vm_compute; reflexivity |].
  apply bind_Some in E as (s1 & E1 & E).
  apply bind_Some in E as (s2 & E2 & E).
  injection E as <- <-.
  cbn [fst snd] in Hs.
  injection Hs as Hw Ha Hw' Hp Hp'.
  exists s1, s2. split; [exact E1 |].
  split; [apply runSame_reachable with 1374%N quiet afterSetup;
          [exact afterSetup_reachable | exact E1] |].
  split; [exact Hw |]. split; [exact Ha |]. split; [exact E2 |].
  split; [exact Hw' |]. split; [exact Hp | exact Hp'].
Qed.

(** ** C4: the order of the rotation *)

Lemma rotationFrom_snoc (w : Z) (k : nat) (l : list Sound) :
  (l ++ [soundAt w]) ++ rotationFrom (nextIndex w) k
  = l ++ rotationFrom w (S k).
Proof. cbn [rotationFrom]. now rewrite <- app_assoc. Qed.

Lemma run_rotation (inputs : list Input) (s s' : State) :
  wellFormed s -> run inputs s = Some s' ->
  exists k,
    soundsLaunched s' = soundsLaunched s ++ rotationFrom (whichSound s) k.
Proof.
  revert s. induction inputs as [| i rest IH]; intros s Hwf Hrun.
  - cbn in Hrun. injection Hrun as <-. exists 0%nat.
    cbn. now rewrite app_nil_r.
  - cbn [run] in Hrun.
    destruct (loop_wellFormed i s Hwf) as (s1 & E & Hwf1 & Heff).
    rewrite E in Hrun. cbn [bind] in Hrun.
    destruct (IH s1 Hwf1 Hrun) as (k & Hk).
    unfold soundsLaunched in *.
    destruct Heff as [(_ & Hws & Hcalls) | (_ & _ & _ & _ & _ & Hws & Hcalls)].
    + exists k. now rewrite Hk, Hws, Hcalls.
    + exists (S k). rewrite Hk, Hws, Hcalls. cbn [rev].
      apply rotationFrom_snoc.
Qed.

Lemma rotationFrom_period (w : Z) (k : nat) :
  0 <= w <= 4 ->
  rotationFrom w (5 + k) = rotationFrom w 5 ++ rotationFrom w k.
Proof.
  intros Hw.
  assert (Hcases : w = 0 \/ w = 1 \/ w = 2 \/ w = 3 \/ w = 4) by lia.
  destruct Hcases as [-> | [-> | [-> | [-> | ->]]]]; reflexivity.
Qed.

(** C4, as stated, fails.  1378 passes after [setup] the rotation index is
    0 and nothing sounds; over the next 1671 passes [loop] launches five
    sounds, and they are Melody, Melody, Announcement, PulseSequence,
    ToneSequence: the second launch is the second melody, not the
    announcement. *)
Lemma rotation_from_index_0 :
  exists s s',
    runSame 1378 quiet afterSetup = Some s /\
    reachable s /\
    whichSound s = 0 /\ inMozzi s = 0 /\ activeCount s = 0 /\
    runSame 1671 quiet s = Some s' /\
    soundsLaunched s' =
      soundsLaunched s ++
      [Melody; Melody; Announcement; PulseSequence; ToneSequence] /\
    soundsLaunched s' <>
      soundsLaunched s ++
      [Melody; Announcement; PulseSequence; ToneSequence; Melody].
Proof.
  destruct (run_yields (runSame 1378 quiet afterSetup)
              (fun s => (whichSound s, inMozzi s, activeCount s,
                         soundsLaunched s))
              (0, 0, 0,
               [Melody; Melody; Announcement; PulseSequence; ToneSequence]))
    as (s & E & Hs); [vm_compute; reflexivity |].
  destruct (run_yields (runSame (1671 + 1378) quiet afterSetup)
              soundsLaunched
              [Melody; Melody; Announcement; PulseSequence; ToneSequence;
               Melody; Melody; Announcement; PulseSequence; ToneSequence])
    as (s' & E' & Hs'); [vm_compute; reflexivity |].
  rewrite runSame_add, E in E'. cbn [bind] in E'.
  injection Hs as Hws Hz Ha Hl.
  exists s, s'. rewrite Hs', Hl.
  split; [exact E |].
  split; [apply runSame_reachable with 1378%N quiet afterSetup;
          [exact afterSetup_reachable | exact E] |].
  split; [exact Hws |]. split; [exact Hz |]. split; [exact Ha |].
  split; [exact E' |].
  split; [reflexivity | discriminate].
Qed.

(** From power-on the first five launches of [loop], which follow the
    melody [setup] starts, are Melody, Announcement, PulseSequence,
    ToneSequence, Melody. *)
Lemma first_launches_after_setup :
  option_map soundsLaunched (runSame 1676 quiet afterSetup)
  = Some [Melody;
          Melody; Announcement; PulseSequence; ToneSequence; Melody].
Proof. vm_compute. reflexivity. Qed.

(** ** C5: the idle period between two launches *)

(** C5 fails on the code.  From power-on, with every tone ending at once,
    sounds are launched by the passes that draw the 300th frame after the
    launch before them, 106 times over, the first of them 300 frames after
    the melody of [setup].  The counter then passes 32000 and is set to 0,
    which is a multiple of 300: after 35840 passes 200 frames have been
    drawn since the last launch, and the next pass draws the 201st and
    launches a sound. *)
Theorem launch_after_201_frames :
  exists s s',
    runSame 35840 quiet afterSetup = Some s /\
    reachable s /\
    counter s = 0 /\
    launchGaps s = repeat 300%nat 106 ++ [200%nat] /\
    loop quiet s = Some s' /\
    launchGaps s' = repeat 300%nat 106 ++ [201%nat; 0%nat].
Proof.
  destruct (run_yields
              (s <- runSame 35840 quiet afterSetup ;;
               s' <- loop quiet s ;; Some (s, s'))
              (fun p => (counter (fst p), launchGaps (fst p),
                         launchGaps (snd p)))
              (0, repeat 300%nat 106 ++ [200%nat],
               repeat 300%nat 106 ++ [201%nat; 0%nat]))
    as ([s s'] & E & Hs); [vm_compute; reflexivity |].
  apply bind_Some in E as (s1 & E1 & E).
  apply bind_Some in E as (s2 & E2 & E).
  injection E as <- <-.
  cbn [fst snd] in Hs.
  injection Hs as Hc Hg Hg'.
  exists s1, s2. split; [exact E1 |].
  split; [apply runSame_reachable with 35840%N quiet afterSetup;
          [exact afterSetup_reachable | exact E1] |].
  split; [exact Hc |]. split; [exact Hg |]. split; [exact E2 | exact Hg'].
Qed.

(** Short of the counter's return to 0 the period holds: a pass out of a
    reachable state launches a sound exactly when nothing sounds, neither
    the melody nor the pulse sequence is active, and the counter is a
    multiple of 300. *)
Lemma launch_iff_counter_multiple (i : Input) (s s' : State) :
  reachable s -> loop i s = Some s' ->
  launchCalls (calls s') <> launchCalls (calls s) <->
  inMozzi s = 0 /\ inMelody s = 0 /\ inChuffing s = 0 /\
  counter s mod FLICKERS_PER_SOUND = 0.
Proof.
  intros Hr Hloop.
  destruct (loop_wellFormed i s (reachable_wellFormed s Hr))
    as (s'' & E & _ & Heff).
  rewrite E in Hloop. injection Hloop as <-.
  destruct Heff as [(Hnot & _ & Hsame) | (Hz & Hm & Hc & _ & Hmod & _ & Hnew)].
  - split; [intros H; contradiction | intros H; contradiction].
  - split; [intros _; repeat split; assumption |].
    intros _ Heq. rewrite Hnew in Heq.
    apply (f_equal (@length Sound)) in Heq. cbn in Heq. lia.
Qed.

(** * Further properties *)

(** ** The colours of a frame *)

Lemma trainLights_palette (rnd : nat -> N) (s : State) :
  exists w c ms,
    0 <= w < 3 /\ palette w c /\ 10 <= ms <= 99 /\
    trainLights rnd s = afterFrame w c ms s.
Proof.
  pose proof (random_range (rnd 0%nat) 3 ltac:(lia)) as Hw.
  pose proof (random_range (rnd 1%nat) 90 ltac:(lia)) as Hms.
  pose proof (random_range (rnd 2%nat) 10 ltac:(lia)) as H10.
  pose proof (random_range (rnd 2%nat) 5 ltac:(lia)) as H5.
  pose proof (random_range (rnd 3%nat) 5 ltac:(lia)) as H5'.
  pose proof (random_range (rnd 3%nat) 10 ltac:(lia)) as H10'.
  pose proof (random_range (rnd 3%nat) 2 ltac:(lia)) as H2a.
  pose proof (random_range (rnd 4%nat) 2 ltac:(lia)) as H2b.
  pose proof (random_range (rnd 5%nat) 2 ltac:(lia)) as H2c.
  pose proof (random_range (rnd 3%nat) 50 ltac:(lia)) as H50.
  pose proof (random_range (rnd 4%nat) 20 ltac:(lia)) as H20.
  unfold trainLights.
  rewrite (int16_small (random (rnd 0%nat) 3)) by lia.
  set (w := random (rnd 0%nat) 3) in *.
  set (rgb := if w =? 2 then _ else _).
  assert (Hrgb : palette w (mkColor (uint8 (fst (fst rgb)))
                                   (uint8 (snd (fst rgb)))
                                   (uint8 (snd rgb)))).
  { unfold palette, rgb.
    destruct (Z.eqb_spec w 2) as [_ | _]; [| destruct (Z.eqb_spec w 0)].
    - cbn [fst snd].
      rewrite (int16_small (200 + _)) by lia.
      rewrite (int16_small (200 + _ - 120 + _)) by lia.
      rewrite !uint8_small by lia.
      unfold engineLight. cbn. lia.
    - cbn [fst snd].
      rewrite (int16_small (95 + _)) by lia.
      rewrite (int16_small (195 + _)) by lia.
      rewrite !uint8_small by lia.
      unfold cabinLight. cbn. lia.
    - destruct (random (rnd 2%nat) 10 =? 1); cbn [fst snd].
      + left.
        rewrite !(int16_small (255 * _)) by lia.
        rewrite !uint8_small by lia.
        unfold stoveFlash. cbn. lia.
      + right.
        rewrite (int16_small (150 + _)) by lia.
        rewrite (int16_small (random _ 20)) by lia.
        rewrite !uint8_small by lia.
        unfold stoveGlow. cbn. lia. }
  destruct rgb as [[r g] b]. cbn [fst snd] in Hrgb.
  exists w, (mkColor (uint8 r) (uint8 g) (uint8 b)),
    (10 + random (rnd 1%nat) 90).
  split; [exact Hw |]. split; [exact Hrgb |]. split; [lia |].
  unfold afterFrame, setPixelColor.
  rewrite (uint16_small w) by lia.
  destruct (Z.ltb_spec w LED_COUNT) as [_ | Hge];
    [reflexivity | unfold LED_COUNT in Hge; lia].
Qed.

Lemma trainLights_arguments (rnd : nat -> N) (s : State) :
  trainLights rnd s =
    (let '(w, r, g, b) := frameArguments rnd in
     show (setPixelColor w r g b
             (digitalWrite true
                (delay (framePause rnd) (digitalWrite false s))))).
Proof.
  unfold trainLights, frameArguments, framePause. cbv zeta.
  set (w := int16 (random (rnd 0%nat) 3)).
  set (rgb := if w =? 2 then _ else _).
  destruct rgb as [[r g] b]. reflexivity.
Qed.

Lemma frameArguments_palette (rnd : nat -> N) :
  exists w r g b,
    frameArguments rnd = (w, r, g, b) /\
    0 <= w < 3 /\ palette w (mkColor r g b) /\
    0 <= r <= 255 /\ 0 <= g <= 255 /\ 0 <= b <= 255.
Proof.
  pose proof (random_range (rnd 0%nat) 3 ltac:(lia)) as Hw.
  pose proof (random_range (rnd 2%nat) 10 ltac:(lia)) as H10.
  pose proof (random_range (rnd 2%nat) 5 ltac:(lia)) as H5.
  pose proof (random_range (rnd 3%nat) 5 ltac:(lia)) as H5'.
  pose proof (random_range (rnd 3%nat) 10 ltac:(lia)) as H10'.
  pose proof (random_range (rnd 3%nat) 2 ltac:(lia)) as H2a.
  pose proof (random_range (rnd 4%nat) 2 ltac:(lia)) as H2b.
  pose proof (random_range (rnd 5%nat) 2 ltac:(lia)) as H2c.
  pose proof (random_range (rnd 3%nat) 50 ltac:(lia)) as H50.
  pose proof (random_range (rnd 4%nat) 20 ltac:(lia)) as H20.
  unfold frameArguments. cbv zeta.
  rewrite (int16_small (random (rnd 0%nat) 3)) by lia.
  set (w := random (rnd 0%nat) 3) in *.
  destruct (w =? 2) eqn:E2; [| destruct (w =? 0) eqn:E0].
  - rewrite (int16_small (200 + _)) by lia.
    rewrite (int16_small (200 + _ - 120 + _)) by lia.
    eexists _, _, _, _. split; [reflexivity |].
    unfold palette, engineLight. rewrite E2. cbn [red green blue]. lia.
  - rewrite (int16_small (95 + _)) by lia.
    rewrite (int16_small (195 + _)) by lia.
    eexists _, _, _, _. split; [reflexivity |].
    unfold palette, cabinLight. rewrite E2, E0. cbn [red green blue]. lia.
  - destruct (random (rnd 2%nat) 10 =? 1).
    + rewrite !(int16_small (255 * _)) by lia.
      eexists _, _, _, _. split; [reflexivity |].
      unfold palette, stoveFlash. rewrite E2, E0. cbn [red green blue]. lia.
    + rewrite (int16_small (150 + _)) by lia.
      rewrite (int16_small (random _ 20)) by lia.
      eexists _, _, _, _. split; [reflexivity |].
      unfold palette, stoveGlow. rewrite E2, E0. cbn [red green blue]. lia.
Qed.

(** X1.  Whatever [random()] returns, the zone and the three [int]s that
    [trainLights] computes and hands to [strip.setPixelColor] are a zone
    of the strip and a colour of that zone's palette: for zone 2 a red of
    200..209 with green and blue equal and 116..120 below it, for zone 0 a
    red of 195..204 over a green of 95..99 without blue, for zone 1 either
    channels that are each 0 or 255, or a red of 150..199 over a green of
    0..19 without blue.  Each [int] lies in 0..255, so the call's
    [uint8_t] parameters take it as it is: the colour the strip is given
    is the colour computed.  The frame pauses for 10 to 99 milliseconds. *)
Theorem frame_colour_in_palette (rnd : nat -> N) (s : State) :
  exists w r g b,
    frameArguments rnd = (w, r, g, b) /\
    0 <= w < 3 /\
    palette w (mkColor r g b) /\
    0 <= r <= 255 /\ 0 <= g <= 255 /\ 0 <= b <= 255 /\
    10 <= framePause rnd <= 99 /\
    trainLights rnd s =
      show (setPixelColor w r g b
              (digitalWrite true
                 (delay (framePause rnd) (digitalWrite false s)))) /\
    calls (trainLights rnd s) =
      C_show :: C_setPixelColor w (mkColor r g b)
             :: C_delay (framePause rnd) :: calls s.
Proof.
  destruct (frameArguments_palette rnd)
    as (w & r & g & b & Hargs & Hw & Hp & Hr & Hg & Hb).
  pose proof (random_range (rnd 1%nat) 90 ltac:(lia)) as Hms.
  exists w, r, g, b.
  split; [exact Hargs |]. split; [exact Hw |]. split; [exact Hp |].
  split; [exact Hr |]. split; [exact Hg |]. split; [exact Hb |].
  split; [unfold framePause; lia |].
  rewrite trainLights_arguments, Hargs.
  split; [reflexivity |].
  unfold show, setPixelColor.
  rewrite (uint16_small w), (uint8_small r), (uint8_small g),
    (uint8_small b) by lia.
  destruct (Z.ltb_spec w LED_COUNT) as [_ | Hge];
    [reflexivity | unfold LED_COUNT in Hge; lia].
Qed.

(** ** The branches of a pass *)

Lemma whistleStep_idle (s : State) :
  inWhistle s = 0 -> whistleStep (stopMozzi s) = stopMozzi s.
Proof. intros H. unfold whistleStep. cbn. now rewrite H. Qed.

Lemma loop_pass (i : Input) (s : State) :
  wellFormed s -> exists s', loop i s = Some s' /\ Pass i s s'.
Proof.
  intros Hwf. unfold loop.
  pose proof (wf_inMozzi _ s Hwf) as Hz01.
  pose proof (wf_inMelody _ s Hwf) as Hm01.
  pose proof (wf_inChuffing _ s Hwf) as Hc01.
  destruct (Z.eqb_spec (inMozzi s) 1) as [Hz | Hz].
  { eexists. split; [reflexivity |]. now apply pass_audio. }
  cbv zeta.
  change (inMelody (stopMozzi s)) with (inMelody s).
  change (inChuffing (stopMozzi s)) with (inChuffing s).
  destruct (Z.eqb_spec (inMelody s) 1) as [Hm | Hm].
  { destruct (playNextNoteInMelody_inside (stopMozzi s))
      as (d & note & Hd & Hn & [Hnz _] & ->).
    { apply (wf_melody _ s Hwf Hm). }
    eexists. split; [reflexivity |].
    apply pass_note; try assumption. lia. }
  destruct (Z.eqb_spec (inChuffing s) 1) as [Hc | Hc].
  { eexists. split; [reflexivity |]. apply pass_chuff; lia. }
  change (if inWhistle (stopMozzi s) =? 1
          then nextWhistle (stopMozzi s) else stopMozzi s)
    with (whistleStep (stopMozzi s)).
  destruct (trainLights_palette (rnd i) (whistleStep (stopMozzi s)))
    as (w & c & ms & Hw & Hp & Hms & ->).
  destruct (midPass_frame w c ms s Hwf Hm Hc)
    as (Hmid & Hm2 & Hc2 & Hw2 & Hcnt & _).
  set (s2 := afterFrame w c ms (whistleStep (stopMozzi s))) in *.
  rewrite Hcnt.
  destruct (Z.eqb_spec (counter s mod FLICKERS_PER_SOUND) 0) as [Hmod | Hmod].
  - assert (Hw0 : inWhistle s = 0).
    { destruct (wf_inWhistle _ s Hwf) as [E | E]; [exact E |].
      destruct (wf_whistle _ s Hwf E). lia. }
    destruct (launchSound_midPass s2 Hmid Hm2 Hc2 (Hw2 Hmod))
      as (s3 & E3 & _); [now rewrite Hcnt |].
    rewrite E3. cbn [bind].
    exists (bump s3). split; [reflexivity |].
    apply pass_launch with w c ms; try assumption; try lia.
    unfold s2 in E3. now rewrite whistleStep_idle in E3.
  - cbn [bind]. exists (bump s2). split; [reflexivity |].
    apply pass_frame; try assumption; lia.
Qed.

(** ** What a pass keeps beyond the bounds of the variables *)

Lemma zonesInPalette_set (w : Z) (c : Color) (l : list Color) :
  zonesInPalette l -> 0 <= w < 3 -> palette w c ->
  zonesInPalette (list_set (Z.to_nat w) c l).
Proof.
  intros (c0 & c1 & c2 & -> & H0 & H1 & H2) Hw Hp.
  assert (Hcases : w = 0 \/ w = 1 \/ w = 2) by lia.
  unfold zonesInPalette, zoneColour.
  destruct Hcases as [-> | [-> | ->]]; cbn;
    do 3 eexists; (split; [reflexivity |]); auto.
Qed.

Lemma settled_audioHook (h : Hook) (s : State) :
  settled s -> settled (audioHook h s).
Proof.
  intros [].
  destruct h as [| ready envelope]; [constructor; assumption |].
  unfold audioHook, updateControl.
  destruct ready; [| destruct (_ || _)];
    destruct s; constructor; cbn in *; auto; intros; lia.
Qed.

Lemma settled_afterNote (note len : Z) (s : State) :
  settled s -> 0 <= len <= 3072 ->
  whichMelody s = 0 \/ whichMelody s = 1 ->
  settled (afterNote note len (stopMozzi s)).
Proof.
  intros [] Hlen Hwm. unfold afterNote.
  destruct s; cbn in *.
  destruct (_ >=? _); constructor; cbn; constants;
    rewrite ?uint16_small by lia; auto; lia.
Qed.

Lemma settled_chuffNextChuff (s : State) :
  settled s -> 50 <= chuffDelay s <= CHUFF_DELAY ->
  settled (chuffNextChuff (stopMozzi s)).
Proof.
  intros [] Hd. unfold chuffNextChuff, chuff.
  destruct s; cbn in *. constants.
  destruct (_ <? _); cbn; destruct (_ >=? _);
    constructor; cbn; constants;
    rewrite ?uint16_small by lia; auto; lia.
Qed.

Lemma settled_frame (w : Z) (c : Color) (ms : Z) (s : State) :
  settled s -> inMozzi s = 0 -> 0 <= w < 3 -> palette w c ->
  settled (afterFrame w c ms (whistleStep (stopMozzi s))).
Proof.
  intros [] Hz Hw Hp.
  pose proof (zonesInPalette_set w c (pixels s) st_zones0 Hw Hp) as Hzones.
  unfold afterFrame, whistleStep, nextWhistle, whistle.
  destruct s; cbn in *. subst.
  destruct (inWhistle0 =? 1); cbn; [| constructor; cbn; auto; lia].
  destruct (curWhistle0 =? WHISTLE_TRITONE);
    [| destruct (curWhistle0 =? WHISTLE_INITIAL)]; cbn;
    destruct (_ >? _); constructor; cbn; constants; auto; lia.
Qed.

Lemma settled_launchSound (s s' : State) :
  settled s -> 0 <= whichSound s <= 4 -> inMozzi s = 0 ->
  launchSound s = Some s' -> settled s'.
Proof.
  intros [] Hws Hz E.
  assert (Hcases : whichSound s = 0 \/ whichSound s = 1 \/ whichSound s = 2 \/
                   whichSound s = 3 \/ whichSound s = 4) by lia.
  destruct s; cbn in *; subst.
  destruct Hcases as [-> | [-> | [-> | [-> | ->]]]];
    vm_compute in E; injection E as <-;
    constructor; cbn; constants; auto; try lia; intros; try lia;
    split; reflexivity.
Qed.

Lemma settled_bump (s : State) : settled s -> settled (bump s).
Proof.
  intros []. unfold bump. destruct s; cbn in *.
  destruct (_ >? _); constructor; cbn; auto.
Qed.

Lemma afterFrame_quiet (w : Z) (c : Color) (ms : Z) (s : State) :
  inMozzi (afterFrame w c ms s) = inMozzi s /\
  whichSound (afterFrame w c ms s) = whichSound s.
Proof. split; reflexivity. Qed.

Lemma settled_pass (i : Input) (s s' : State) :
  wellFormed s -> settled s -> Pass i s s' -> settled s'.
Proof.
  intros Hwf Hst Hpass.
  destruct Hpass
    as [Hz | d note Hz Hm Hd Hn Hnz | Hz Hm Hc
        | w c ms Hz Hm Hc Hmod Hw Hp Hms
        | w c ms s3 Hz Hm Hc Hwh Hmod Hw Hp Hms E].
  - now apply settled_audioHook.
  - apply settled_afterNote; [exact Hst | | exact (st_melody s Hst)].
    now apply spec_playbackLength_range.
  - apply settled_chuffNextChuff; [exact Hst |].
    exact (wf_chuffDelay _ s Hwf).
  - apply settled_bump. now apply settled_frame.
  - apply settled_bump.
    apply settled_launchSound with (afterFrame w c ms (stopMozzi s));
      [| exact (wf_whichSound _ s Hwf) | exact Hz | exact E].
    rewrite <- (whistleStep_idle s Hwh). now apply settled_frame.
Qed.

Lemma afterSetup_settled : settled afterSetup.
Proof.
  constructor; cbn; constants; auto; try lia.
  unfold zonesInPalette, zoneColour.
  do 3 eexists. split; [reflexivity |]. auto.
Qed.

Lemma reachable_settled (s : State) : reachable s -> settled s.
Proof.
  induction 1 as [s Hs | s i s' Hr IH Hloop].
  - rewrite setup_powerOn in Hs. injection Hs as <-.
    exact afterSetup_settled.
  - pose proof (reachable_wellFormed s Hr) as Hwf.
    destruct (loop_pass i s Hwf) as (s'' & E & Hpass).
    rewrite E in Hloop. injection Hloop as <-.
    now apply settled_pass with i s.
Qed.

(** X2.  Between two passes the LEDs show what the pixel buffer holds, and
    each of the three zones is dark or holds a colour of its own palette:
    no zone ever takes a colour drawn for another. *)
Theorem lights_stay_in_palette (s : State) :
  reachable s ->
  shown s = pixels s /\
  exists c0 c1 c2,
    pixels s = [c0; c1; c2] /\
    (c0 = black \/ cabinLight c0) /\
    (c1 = black \/ stoveFlash c1 \/ stoveGlow c1) /\
    (c2 = black \/ engineLight c2).
Proof.
  intros Hr. destruct (reachable_settled s Hr) as [_ _ _ _ Hshown Hzones].
  split; [exact Hshown |].
  destruct Hzones as (c0 & c1 & c2 & E & H0 & H1 & H2).
  exists c0, c1, c2. split; [exact E |].
  unfold zoneColour, palette in *. cbn in *. auto.
Qed.

Lemma lights_stay_in_palette_witness :
  reachable afterSetup /\
  shown afterSetup = pixels afterSetup /\
  exists c0 c1 c2,
    pixels afterSetup = [c0; c1; c2] /\
    (c0 = black \/ cabinLight c0) /\
    (c1 = black \/ stoveFlash c1 \/ stoveGlow c1) /\
    (c2 = black \/ engineLight c2).
Proof.
  split.
  - apply reach_setup. vm_compute. reflexivity.
  - apply (lights_stay_in_palette afterSetup).
    apply reach_setup. vm_compute. reflexivity.
Defined.

(** X3.  Between two passes every variable of the sketch is inside the
    range its use needs: the flags are 0 or 1, the rotation index is 0..4,
    the counter 0..32000, the pulse count below 15, the delay between
    pulses 50..1100, the melody chosen is 0 or 1, the note index of an
    active melody is inside the chosen table, a whistle under way is at
    stage 1 or 2, and the time last given to the timer fits an unsigned
    int. *)
Theorem variables_stay_in_range (s : State) :
  reachable s ->
  (inMozzi s = 0 \/ inMozzi s = 1) /\
  (inMelody s = 0 \/ inMelody s = 1) /\
  (inChuffing s = 0 \/ inChuffing s = 1) /\
  (inWhistle s = 0 \/ inWhistle s = 1) /\
  0 <= whichSound s <= 4 /\
  0 <= counter s <= 32000 /\
  0 <= curChuff s < NUM_CHUFFS /\
  50 <= chuffDelay s <= CHUFF_DELAY /\
  (whichMelody s = 0 \/ whichMelody s = 1) /\
  (inMelody s = 1 ->
   0 <= curMelodyNote s < tableLength (whichMelody s)) /\
  (inWhistle s = 1 ->
   WHISTLE_TRITONE <= curWhistle s <= WHISTLE_FADE) /\
  0 <= kDelayMs s <= 3072.
Proof.
  intros Hr.
  destruct (reachable_wellFormed s Hr). destruct (reachable_settled s Hr).
  repeat (split; [assumption |]).
  split; [| assumption].
  intros Hw. now destruct (wf_whistle0 Hw).
Qed.

Lemma variables_stay_in_range_witness :
  reachable afterFirstPass /\
  (inMozzi afterFirstPass = 0 \/ inMozzi afterFirstPass = 1) /\
  (inMelody afterFirstPass = 0 \/ inMelody afterFirstPass = 1) /\
  (inChuffing afterFirstPass = 0 \/ inChuffing afterFirstPass = 1) /\
  (inWhistle afterFirstPass = 0 \/ inWhistle afterFirstPass = 1) /\
  0 <= whichSound afterFirstPass <= 4 /\
  0 <= counter afterFirstPass <= 32000 /\
  0 <= curChuff afterFirstPass < NUM_CHUFFS /\
  50 <= chuffDelay afterFirstPass <= CHUFF_DELAY /\
  (whichMelody afterFirstPass = 0 \/ whichMelody afterFirstPass = 1) /\
  (inMelody afterFirstPass = 1 ->
   0 <= curMelodyNote afterFirstPass
     < tableLength (whichMelody afterFirstPass)) /\
  (inWhistle afterFirstPass = 1 ->
   WHISTLE_TRITONE <= curWhistle afterFirstPass <= WHISTLE_FADE) /\
  0 <= kDelayMs afterFirstPass <= 3072.
Proof.
  assert (Hr : reachable afterFirstPass).
  { apply reach_loop with afterSetup quiet.
    - apply reach_setup. vm_compute. reflexivity.
    - vm_compute. reflexivity. }
  split; [exact Hr |].
  apply (variables_stay_in_range afterFirstPass). exact Hr.
Defined.

(** X4.  While the sketch holds a tone to be sounding ([inMozzi] is 1)
    Mozzi has been started and not stopped, and the built-in LED is lit. *)
Theorem tone_sounds_with_mozzi_running (s : State) :
  reachable s -> inMozzi s = 1 ->
  mozziRunning s = true /\ ledBuiltin s = true.
Proof.
  intros Hr. exact (st_sounding s (reachable_settled s Hr)).
Qed.

Lemma tone_sounds_with_mozzi_running_witness :
  reachable afterSetup /\ inMozzi afterSetup = 1 /\
  mozziRunning afterSetup = true /\ ledBuiltin afterSetup = true.
Proof.
  split; [apply reach_setup; vm_compute; reflexivity |].
  split; [reflexivity |].
  apply (tone_sounds_with_mozzi_running afterSetup).
  - apply reach_setup. vm_compute. reflexivity.
  - reflexivity.
Defined.

(** X5.  No run of [loop] from power-on reads a melody table outside its
    bounds or divides by zero: [setup] succeeds, and from every reachable
    state every sequence of passes, whatever the timer and [random()] do,
    ends in a state. *)
Theorem run_never_undefined (s : State) (inputs : list Input) :
  reachable s ->
  setup powerOn <> None /\
  exists s', run inputs s = Some s' /\ reachable s'.
Proof.
  intros Hr. split; [rewrite setup_powerOn; discriminate |].
  revert s Hr. induction inputs as [| i rest IH]; intros s Hr.
  - exists s. split; [reflexivity | exact Hr].
  - destruct (loop_total i s Hr) as (s1 & E & Hr1).
    destruct (IH s1 Hr1) as (s' & E' & Hr').
    exists s'. split; [| exact Hr'].
    cbn [run]. rewrite E. exact E'.
Qed.

Lemma run_never_undefined_witness :
  reachable afterSetup /\
  setup powerOn <> None /\
  exists s', run [quiet; flash] afterSetup = Some s' /\ reachable s'.
Proof.
  split; [apply reach_setup; vm_compute; reflexivity |].
  apply (run_never_undefined afterSetup [quiet; flash]).
  apply reach_setup. vm_compute. reflexivity.
Defined.

(** ** The audio callback *)

(** X6.  [updateAudio] has no [return] for a mode [mozziMode] that is none
    of the three the sketch defines.  Between two passes that mode never
    arises: the callback returns 0 exactly when no tone is held to be
    sounding, and a value of [from16Bit] otherwise. *)
Theorem updateAudio_always_returns (x : Samples) (s : State) :
  reachable s ->
  updateAudio x s <> NoReturn /\
  (inMozzi s = 0 -> updateAudio x s = Silence) /\
  (inMozzi s = 1 -> exists v, updateAudio x s = From16Bit v).
Proof.
  intros Hr.
  pose proof (wf_inMozzi _ s (reachable_wellFormed s Hr)) as Hz.
  pose proof (st_mode s (reachable_settled s Hr)) as Hmode.
  unfold updateAudio.
  destruct (Z.eqb_spec (inMozzi s) 0) as [E0 | E0].
  { split; [discriminate |]. split; [reflexivity | lia]. }
  destruct (Z.eqb_spec (mozziMode s) MOZZI_CHUFF);
    [split; [discriminate |]; split; [lia | eexists; reflexivity] |].
  destruct (Z.eqb_spec (mozziMode s) MOZZI_NOTE);
    [split; [discriminate |]; split; [lia | eexists; reflexivity] |].
  destruct (Z.eqb_spec (mozziMode s) MOZZI_WHISTLE); [| tauto].
  destruct (negb _);
    (split; [discriminate |]; split; [lia | eexists; reflexivity]).
Qed.

Lemma updateAudio_always_returns_witness :
  reachable afterSetup /\
  updateAudio (mkSamples 0 127 0 0 0 0) afterSetup <> NoReturn /\
  (inMozzi afterSetup = 0 ->
   updateAudio (mkSamples 0 127 0 0 0 0) afterSetup = Silence) /\
  (inMozzi afterSetup = 1 ->
   exists v, updateAudio (mkSamples 0 127 0 0 0 0) afterSetup = From16Bit v).
Proof.
  split; [apply reach_setup; vm_compute; reflexivity |].
  apply (updateAudio_always_returns (mkSamples 0 127 0 0 0 0) afterSetup).
  apply reach_setup. vm_compute. reflexivity.
Defined.

Lemma updateAudio_exact (x : Samples) (s : State) :
  int8Samples x -> 0 <= gain s <= 255 -> -127 <= aSin_next x ->
  inMozzi s <> 0 ->
  mozziMode s = MOZZI_CHUFF \/ mozziMode s = MOZZI_NOTE \/
  mozziMode s = MOZZI_WHISTLE ->
  exists v,
    updateAudio x s = From16Bit v /\
    -32768 <= v <= 32767 /\
    (mozziMode s = MOZZI_CHUFF -> v = gain s * aNoise_next x) /\
    (mozziMode s = MOZZI_NOTE -> v = aSin_next x * 257) /\
    (mozziMode s = MOZZI_WHISTLE -> curWhistle s <> WHISTLE_TRITONE ->
     v = aSquare_next x * 100
         + (bSquare_next x + cSquare_next x + dSquare_next x * 64)
         + aNoise_next x * 85) /\
    (mozziMode s = MOZZI_WHISTLE -> curWhistle s = WHISTLE_TRITONE ->
     v = aSquare_next x * 100 + aNoise_next x * 85).
Proof.
  intros (Hn & Hsin & Ha & Hb & Hc & Hd) Hg Hsin' Hz Hmode.
  unfold int8 in *. unfold updateAudio, iadd, imul.
  destruct (Z.eqb_spec (inMozzi s) 0) as [E0 | _]; [contradiction |].
  constants.
  destruct (Z.eqb_spec (mozziMode s) 1) as [E1 | E1].
  { rewrite int16_small by nia.
    eexists. split; [reflexivity |]. split; [nia |].
    repeat split; intros; try reflexivity; lia. }
  destruct (Z.eqb_spec (mozziMode s) 2) as [E2 | E2].
  { rewrite int16_small by lia.
    eexists. split; [reflexivity |]. split; [lia |].
    repeat split; intros; try reflexivity; lia. }
  destruct (Z.eqb_spec (mozziMode s) 3) as [E3 | E3]; [| lia].
  destruct (Z.eqb_spec (curWhistle s) 1) as [Ew | Ew]; cbn [negb].
  - rewrite !(int16_small (_ * _)) by lia.
    rewrite int16_small by lia.
    eexists. split; [reflexivity |]. split; [lia |].
    repeat split; intros; try reflexivity; lia.
  - rewrite !(int16_small (_ * _)) by lia.
    rewrite (int16_small (bSquare_next x + cSquare_next x)) by lia.
    rewrite (int16_small (bSquare_next x + cSquare_next x + _)) by lia.
    rewrite (int16_small (aSquare_next x * 100 + _)) by lia.
    rewrite int16_small by lia.
    eexists. split; [reflexivity |]. split; [lia |].
    repeat split; intros; try reflexivity; lia.
Qed.

(** X7.  On 8-bit samples and an envelope gain of 0..255 the sums and
    products of [updateAudio] stay inside 16 bits, a sine sample of -128
    apart (its product with 257 is below -32768): a pulse is the noise
    times the gain, a note the sine times 257, and a whistle a mix in which
    the first square wave weighs 100, the noise 85, and of the three other
    square waves only the last is scaled, by 64. *)
Theorem updateAudio_within_16_bits (x : Samples) (s : State) :
  int8Samples x -> 0 <= gain s <= 255 -> -127 <= aSin_next x ->
  inMozzi s <> 0 ->
  mozziMode s = MOZZI_CHUFF \/ mozziMode s = MOZZI_NOTE \/
  mozziMode s = MOZZI_WHISTLE ->
  exists v,
    updateAudio x s = From16Bit v /\
    -32768 <= v <= 32767 /\
    (mozziMode s = MOZZI_CHUFF -> v = gain s * aNoise_next x) /\
    (mozziMode s = MOZZI_NOTE -> v = aSin_next x * 257) /\
    (mozziMode s = MOZZI_WHISTLE -> curWhistle s <> WHISTLE_TRITONE ->
     v = aSquare_next x * 100
         + (bSquare_next x + cSquare_next x + dSquare_next x * 64)
         + aNoise_next x * 85) /\
    (mozziMode s = MOZZI_WHISTLE -> curWhistle s = WHISTLE_TRITONE ->
     v = aSquare_next x * 100 + aNoise_next x * 85).
Proof. exact (updateAudio_exact x s). Qed.

Lemma updateAudio_within_16_bits_witness :
  int8Samples (mkSamples (-128) 127 (-128) (-128) (-128) (-128)) /\
  0 <= gain afterSetup <= 255 /\
  -127 <= aSin_next (mkSamples (-128) 127 (-128) (-128) (-128) (-128)) /\
  inMozzi afterSetup <> 0 /\
  (mozziMode afterSetup = MOZZI_CHUFF \/ mozziMode afterSetup = MOZZI_NOTE \/
   mozziMode afterSetup = MOZZI_WHISTLE) /\
  exists v,
    updateAudio (mkSamples (-128) 127 (-128) (-128) (-128) (-128)) afterSetup
      = From16Bit v /\
    -32768 <= v <= 32767 /\
    (mozziMode afterSetup = MOZZI_CHUFF ->
     v = gain afterSetup * (-128)) /\
    (mozziMode afterSetup = MOZZI_NOTE -> v = 127 * 257) /\
    (mozziMode afterSetup = MOZZI_WHISTLE ->
     curWhistle afterSetup <> WHISTLE_TRITONE ->
     v = (-128) * 100 + ((-128) + (-128) + (-128) * 64) + (-128) * 85) /\
    (mozziMode afterSetup = MOZZI_WHISTLE ->
     curWhistle afterSetup = WHISTLE_TRITONE ->
     v = (-128) * 100 + (-128) * 85).
Proof.
  assert (H8 : int8Samples (mkSamples (-128) 127 (-128) (-128) (-128) (-128)))
    by (unfold int8Samples, int8; cbn; lia).
  split; [exact H8 |].
  split; [cbn; lia |]. split; [cbn; lia |].
  split; [cbn; lia |]. split; [right; left; reflexivity |].
  apply (updateAudio_within_16_bits
           (mkSamples (-128) 127 (-128) (-128) (-128) (-128)) afterSetup).
  - exact H8.
  - cbn; lia.
  - cbn; lia.
  - cbn; lia.
  - right; left; reflexivity.
Defined.

(** X8.  The test on [curWhistle] in [updateAudio] sees the stage after the
    one that sounds, [nextWhistle] having moved on: while the first stage
    of a whistle sounds, for 900 milliseconds, the mix holds the first
    square wave and the noise alone; while the second sounds, for another
    900, it holds all four square waves; the third has them too and is
    given no time at all. *)
Theorem whistle_mix_by_stage (x : Samples) (s : State) :
  int8Samples x ->
  let single := aSquare_next x * 100 + aNoise_next x * 85 in
  let full :=
    aSquare_next x * 100
    + (bSquare_next x + cSquare_next x + dSquare_next x * 64)
    + aNoise_next x * 85 in
  let s1 := startWhistle s in
  let s2 := nextWhistle s1 in
  let s3 := nextWhistle s2 in
  kDelayMs s1 = 900 /\ updateAudio x s1 = From16Bit single /\
  kDelayMs s2 = 900 /\ updateAudio x s2 = From16Bit full /\
  kDelayMs s3 = 0 /\ updateAudio x s3 = From16Bit full.
Proof.
  intros H8 single full s1 s2 s3.
  assert (Hstage : forall st,
             inMozzi st = 1 -> mozziMode st = MOZZI_WHISTLE ->
             updateAudio x st
             = From16Bit (if curWhistle st =? WHISTLE_TRITONE
                          then single else full)).
  { intros st Hz Hm.
    destruct H8 as (Hn & Hsin & Ha & Hb & Hc & Hd).
    unfold int8 in *. unfold updateAudio, iadd, imul.
    rewrite Hz, Hm. cbn [Z.eqb Pos.eqb MOZZI_CHUFF MOZZI_NOTE MOZZI_WHISTLE].
    destruct (curWhistle st =? WHISTLE_TRITONE); cbn [negb].
    - rewrite !(int16_small (_ * _)) by lia.
      rewrite int16_small by lia. reflexivity.
    - rewrite !(int16_small (_ * _)) by lia.
      rewrite (int16_small (bSquare_next x + cSquare_next x)) by lia.
      rewrite (int16_small (bSquare_next x + cSquare_next x + _)) by lia.
      rewrite (int16_small (aSquare_next x * 100 + _)) by lia.
      rewrite int16_small by lia. reflexivity. }
  assert (Hfields :
            inMozzi s1 = 1 /\ mozziMode s1 = MOZZI_WHISTLE /\
            curWhistle s1 = 1 /\ kDelayMs s1 = 900 /\
            inMozzi s2 = 1 /\ mozziMode s2 = MOZZI_WHISTLE /\
            curWhistle s2 = 2 /\ kDelayMs s2 = 900 /\
            inMozzi s3 = 1 /\ mozziMode s3 = MOZZI_WHISTLE /\
            curWhistle s3 = 0 /\ kDelayMs s3 = 0).
  { unfold s3, s2, s1. destruct s. vm_compute. tauto. }
  destruct Hfields as (Hz1 & Hm1 & Hc1 & Hk1 & Hz2 & Hm2 & Hc2 & Hk2
                       & Hz3 & Hm3 & Hc3 & Hk3).
  rewrite (Hstage s1 Hz1 Hm1), (Hstage s2 Hz2 Hm2), (Hstage s3 Hz3 Hm3).
  rewrite Hc1, Hc2, Hc3. cbn. tauto.
Qed.

Lemma whistle_mix_by_stage_witness :
  int8Samples (mkSamples 5 0 100 (-100) 127 (-128)) /\
  let x := mkSamples 5 0 100 (-100) 127 (-128) in
  let single := aSquare_next x * 100 + aNoise_next x * 85 in
  let full :=
    aSquare_next x * 100
    + (bSquare_next x + cSquare_next x + dSquare_next x * 64)
    + aNoise_next x * 85 in
  let s1 := startWhistle afterSetup in
  let s2 := nextWhistle s1 in
  let s3 := nextWhistle s2 in
  kDelayMs s1 = 900 /\ updateAudio x s1 = From16Bit single /\
  kDelayMs s2 = 900 /\ updateAudio x s2 = From16Bit full /\
  kDelayMs s3 = 0 /\ updateAudio x s3 = From16Bit full.
Proof.
  assert (H8 : int8Samples (mkSamples 5 0 100 (-100) 127 (-128)))
    by (unfold int8Samples, int8; cbn; lia).
  split; [exact H8 |].
  exact (whistle_mix_by_stage (mkSamples 5 0 100 (-100) 127 (-128))
           afterSetup H8).
Defined.

(** ** The pulse sequencer and the note lengths *)

Lemma chuffNextChuff_count (s : State) :
  0 <= curChuff s < NUM_CHUFFS ->
  let last := curChuff s + 1 >=? NUM_CHUFFS in
  curChuff (chuffNextChuff s) = (if last then 0 else curChuff s + 1) /\
  inChuffing (chuffNextChuff s) = (if last then 0 else inChuffing s) /\
  calls (chuffNextChuff s) = C_chuff :: calls s.
Proof.
  intros Hc. unfold chuffNextChuff, chuff.
  destruct s; cbn in *. constants.
  destruct (_ <? _); cbn; rewrite (int16_small (curChuff0 + 1)) by lia;
    destruct (_ >=? _); repeat split.
Qed.

(** X9.  A launch of the pulse sequencer makes exactly [NUM_CHUFFS] = 15
    pulses: after [k] pulses, for [k] from 1 to 14, the sequencer is still
    active with [curChuff = k]; the 15th pulse switches it off and sets the
    count back to 0.  Each pulse is one call of [chuff]. *)
Theorem chuff_runs_fifteen_pulses (s : State) (k : nat) :
  1 <= Z.of_nat k <= NUM_CHUFFS ->
  inChuffing (chuffPulses k s) = (if Z.of_nat k <? NUM_CHUFFS then 1 else 0) /\
  curChuff (chuffPulses k s) =
    (if Z.of_nat k <? NUM_CHUFFS then Z.of_nat k else 0) /\
  calls (chuffPulses k s) = repeat C_chuff k ++ C_startChuffing :: calls s.
Proof.
  assert (Hbefore : forall j,
             Z.of_nat j < NUM_CHUFFS ->
             inChuffing (chuffPulses j s) = 1 /\
             curChuff (chuffPulses j s) = Z.of_nat j /\
             calls (chuffPulses j s)
             = repeat C_chuff j ++ C_startChuffing :: calls s).
  { induction j as [| j IH]; intros Hj.
    - repeat split.
    - destruct IH as (Hin & Hcur & Hcalls); [lia |].
      cbn [chuffPulses].
      destruct (chuffNextChuff_count (chuffPulses j s)) as (-> & -> & ->);
        [constants; lia |].
      rewrite Hin, Hcur, Hcalls.
      destruct (Z.geb_spec (Z.of_nat j + 1) NUM_CHUFFS); [lia |].
      repeat split. lia. }
  intros Hk. destruct k as [| k]; [lia |].
  destruct (Hbefore k) as (Hin & Hcur & Hcalls); [lia |].
  cbn [chuffPulses].
  destruct (chuffNextChuff_count (chuffPulses k s)) as (-> & -> & ->);
    [constants; lia |].
  rewrite Hin, Hcur, Hcalls.
  destruct (Z.geb_spec (Z.of_nat k + 1) NUM_CHUFFS),
    (Z.ltb_spec (Z.of_nat (S k)) NUM_CHUFFS); try lia;
    repeat split; lia.
Qed.

Lemma chuff_runs_fifteen_pulses_witness :
  1 <= Z.of_nat 15 <= NUM_CHUFFS /\
  inChuffing (chuffPulses 15 powerOn)
    = (if Z.of_nat 15 <? NUM_CHUFFS then 1 else 0) /\
  curChuff (chuffPulses 15 powerOn) =
    (if Z.of_nat 15 <? NUM_CHUFFS then Z.of_nat 15 else 0) /\
  calls (chuffPulses 15 powerOn)
    = repeat C_chuff 15 ++ C_startChuffing :: calls powerOn.
Proof.
  split.
  - vm_compute. split; discriminate.
  - apply (chuff_runs_fifteen_pulses powerOn 15).
    vm_compute. split; discriminate.
Defined.

(** X10.  For every duration code that divides 512 a dotted note lasts one
    and a half times the plain one: twice the length converted from [-d] is
    three times the length converted from [d].  Every code in the two
    melodies is, sign apart, such a code. *)
Theorem dotted_note_is_half_as_long_again (d : Z) :
  0 < d -> 512 mod d = 0 ->
  (exists plain dotted,
      noteDuration d = Some plain /\
      noteDuration (- d) = Some dotted /\
      2 * dotted = 3 * plain) /\
  Forall (fun code => code <> 0 /\ 512 mod Z.abs code = 0)
    (melodyDurations ++ melody2Durations).
Proof.
  intros Hd Hdiv. split.
  - assert (d <= 512) by (apply Z.mod_divide in Hdiv; [| lia];
                          apply Z.divide_pos_le in Hdiv; lia).
    exists (1024 / d), ((1024 * 3) / (Z.abs (- d) * 2)).
    split; [apply noteDuration_positive; lia |].
    split; [apply noteDuration_negative; lia |].
    replace (Z.abs (- d)) with d by lia.
    apply Z.mod_divide in Hdiv; [| lia].
    destruct Hdiv as [m Hm].
    replace (1024 * 3) with (3 * m * (d * 2)) by lia.
    replace 1024 with (2 * m * d) by lia.
    rewrite !Z.div_mul by lia. lia.
  - unfold melodyDurations, melody2Durations. cbn [app].
    repeat constructor; discriminate.
Qed.

Lemma dotted_note_is_half_as_long_again_witness :
  0 < 4 /\ 512 mod 4 = 0 /\
  (exists plain dotted,
      noteDuration 4 = Some plain /\
      noteDuration (- 4) = Some dotted /\
      2 * dotted = 3 * plain) /\
  Forall (fun code => code <> 0 /\ 512 mod Z.abs code = 0)
    (melodyDurations ++ melody2Durations).
Proof.
  split; [lia |]. split; [reflexivity |].
  apply (dotted_note_is_half_as_long_again 4); [lia | reflexivity].
Defined.

(** ** Passes that do not draw *)

(** X11.  A pass entered while a tone sounds only polls Mozzi: it succeeds
    and changes nothing but [gain], [inMozzi] and the built-in LED.  If
    [updateControl] runs and finds the timer expired, the tone is over
    ([inMozzi] and [gain] are 0, the LED is off); if it finds the timer
    running, or does not run, the tone goes on. *)
Theorem tone_pass_only_polls (i : Input) (s : State) :
  inMozzi s = 1 ->
  exists s',
    loop i s = Some s' /\
    (exists g z l, s' = set_gain g (set_inMozzi z (set_ledBuiltin l s))) /\
    (forall e, hook i = Control true e ->
               inMozzi s' = 0 /\ gain s' = 0 /\ ledBuiltin s' = false) /\
    (forall e, hook i = Control false e ->
               inMozzi s' = 1 /\ ledBuiltin s' = ledBuiltin s) /\
    (hook i = AudioOnly -> s' = s).
Proof.
  intros Hz. unfold loop. rewrite Hz. cbn [Z.eqb Pos.eqb].
  eexists. split; [reflexivity |].
  unfold audioHook, updateControl.
  destruct (hook i) as [| [|] e].
  - split; [| repeat split; intros; discriminate].
    exists (gain s), (inMozzi s), (ledBuiltin s). now destruct s.
  - split; [exists 0, 0, false; now destruct s |].
    split; [intros; repeat split |].
    split; [intros; discriminate | intros; discriminate].
  - destruct (_ || _).
    + split; [exists (int16 e), (inMozzi s), (ledBuiltin s); now destruct s |].
      split; [intros; discriminate |].
      split; [intros; split; [exact Hz | reflexivity] | intros; discriminate].
    + split; [exists (gain s), (inMozzi s), (ledBuiltin s); now destruct s |].
      split; [intros; discriminate |].
      split; [intros; split; [exact Hz | reflexivity] | intros; discriminate].
Qed.

Lemma tone_pass_only_polls_witness :
  inMozzi afterSetup = 1 /\
  exists s',
    loop quiet afterSetup = Some s' /\
    (exists g z l,
        s' = set_gain g (set_inMozzi z (set_ledBuiltin l afterSetup))) /\
    (forall e, hook quiet = Control true e ->
               inMozzi s' = 0 /\ gain s' = 0 /\ ledBuiltin s' = false) /\
    (forall e, hook quiet = Control false e ->
               inMozzi s' = 1 /\ ledBuiltin s' = ledBuiltin afterSetup) /\
    (hook quiet = AudioOnly -> s' = afterSetup).
Proof.
  split; [reflexivity |].
  apply (tone_pass_only_polls quiet afterSetup). reflexivity.
Defined.

Lemma launchSound_draws_nothing (s s' : State) :
  0 <= whichSound s <= 4 -> launchSound s = Some s' ->
  framesDrawn s' = framesDrawn s /\ counter s' = counter s /\
  pixels s' = pixels s.
Proof.
  intros Hws E.
  assert (Hcases : whichSound s = 0 \/ whichSound s = 1 \/ whichSound s = 2 \/
                   whichSound s = 3 \/ whichSound s = 4) by lia.
  unfold framesDrawn.
  destruct s; cbn in *; subst.
  destruct Hcases as [-> | [-> | [-> | [-> | ->]]]];
    vm_compute in E; injection E as <-; repeat split.
Qed.

Lemma bump_counter (s : State) :
  0 <= counter s <= 32000 ->
  counter (bump s) = (counter s + 1) mod 32001 /\
  framesDrawn (bump s) = framesDrawn s /\ pixels (bump s) = pixels s.
Proof.
  intros Hc. unfold bump. destruct s; cbn in *.
  rewrite (uint32_small (counter0 + 1)) by lia.
  destruct (Z.gtb_spec (counter0 + 1) 32000); cbn; repeat split; lia.
Qed.

Lemma frame_draws_once (w : Z) (c : Color) (ms : Z) (s : State) :
  let s2 := afterFrame w c ms (whistleStep (stopMozzi s)) in
  framesDrawn s2 = S (framesDrawn s) /\ counter s2 = counter s /\
  whichSound s2 = whichSound s.
Proof.
  unfold afterFrame, whistleStep, nextWhistle, whistle, framesDrawn.
  destruct s; cbn.
  destruct (inWhistle0 =? 1); cbn; [| repeat split].
  destruct (curWhistle0 =? WHISTLE_TRITONE);
    [| destruct (curWhistle0 =? WHISTLE_INITIAL)]; cbn;
    destruct (_ >? _); repeat split.
Qed.

(** X12.  The counter of [loop] counts frames.  A pass out of a reachable
    state either draws nothing (the strip is not shown, no pixel changes)
    and leaves the counter alone, or it is entered with no tone sounding
    and neither the melody nor the pulse sequence active, shows the strip
    once and moves the counter on by one, from 32000 back to 0. *)
Theorem counter_counts_frames (i : Input) (s s' : State) :
  reachable s -> loop i s = Some s' ->
  (framesDrawn s' = framesDrawn s /\ counter s' = counter s /\
   pixels s' = pixels s) \/
  (framesDrawn s' = S (framesDrawn s) /\
   counter s' = (counter s + 1) mod 32001 /\
   inMozzi s = 0 /\ inMelody s = 0 /\ inChuffing s = 0).
Proof.
  intros Hr Hloop. pose proof (reachable_wellFormed s Hr) as Hwf.
  destruct (loop_pass i s Hwf) as (s'' & E & Hpass).
  rewrite E in Hloop. injection Hloop as <-.
  destruct Hpass
    as [Hz | d note Hz Hm Hd Hn Hnz | Hz Hm Hc
        | w c ms Hz Hm Hc Hmod Hw Hp Hms
        | w c ms s3 Hz Hm Hc Hwh Hmod Hw Hp Hms E3].
  - left. unfold framesDrawn.
    destruct (audioHook_silent (hook i) s) as (_ & -> & -> & _).
    split; [reflexivity |]. split; [| reflexivity].
    unfold audioHook, updateControl.
    destruct (hook i) as [| [|] e]; [| | destruct (_ || _)]; reflexivity.
  - left. unfold framesDrawn.
    destruct (afterNote_silent note (spec_playbackLength d) (stopMozzi s))
      as (_ & -> & -> & _).
    split; [reflexivity |]. split; [| reflexivity].
    unfold afterNote. destruct (_ >=? _); reflexivity.
  - left. unfold framesDrawn.
    destruct (chuffNextChuff_silent (stopMozzi s)) as (_ & -> & -> & _).
    split; [reflexivity |]. split; [| reflexivity].
    unfold chuffNextChuff, chuff. destruct s; cbn.
    destruct (_ <? _); cbn; destruct (_ >=? _); reflexivity.
  - right.
    destruct (frame_draws_once w c ms s) as (Hf & Hcnt & _).
    destruct (bump_counter (afterFrame w c ms (whistleStep (stopMozzi s))))
      as (-> & -> & _).
    { rewrite Hcnt. exact (wf_counter _ s Hwf). }
    rewrite Hf, Hcnt. auto.
  - right.
    destruct (frame_draws_once w c ms s) as (Hf & Hcnt & Hws).
    rewrite (whistleStep_idle s Hwh) in Hf, Hcnt, Hws.
    destruct (launchSound_draws_nothing
                (afterFrame w c ms (stopMozzi s)) s3)
      as (Hf3 & Hcnt3 & _); [| exact E3 |].
    { rewrite Hws. exact (wf_whichSound _ s Hwf). }
    destruct (bump_counter s3) as (-> & -> & _).
    { rewrite Hcnt3, Hcnt. exact (wf_counter _ s Hwf). }
    rewrite Hf3, Hcnt3, Hf, Hcnt. auto.
Qed.

Lemma counter_counts_frames_witness :
  reachable afterSetup /\ loop quiet afterSetup = Some afterFirstPass /\
  ((framesDrawn afterFirstPass = framesDrawn afterSetup /\
    counter afterFirstPass = counter afterSetup /\
    pixels afterFirstPass = pixels afterSetup) \/
   (framesDrawn afterFirstPass = S (framesDrawn afterSetup) /\
    counter afterFirstPass = (counter afterSetup + 1) mod 32001 /\
    inMozzi afterSetup = 0 /\ inMelody afterSetup = 0 /\
    inChuffing afterSetup = 0)).
Proof.
  split; [apply reach_setup; vm_compute; reflexivity |].
  split; [vm_compute; reflexivity |].
  apply (counter_counts_frames quiet afterSetup afterFirstPass).
  - apply reach_setup. vm_compute. reflexivity.
  - vm_compute. reflexivity.
Defined.

(** ** Every sound comes to its end *)

Lemma tableLength_range (m : Z) : 30 <= tableLength m <= 43.
Proof. unfold tableLength. destruct (m =? 0); constants; lia. Qed.

Lemma pending_range (s : State) :
  wellFormed s ->
  0 <= pending s <= 87 /\
  (pending s = 0 <-> inMozzi s = 0 /\ activeCount s = 0).
Proof.
  intros [].
  pose proof (tableLength_range (whichMelody s)) as Htab.
  unfold pending, stepsLeft, activeCount, active. constants.
  destruct (Z.eqb_spec (inMozzi s) 1) as [Hz | Hz];
    destruct (Z.eqb_spec (inMelody s) 1) as [Hm | Hm];
    destruct (Z.eqb_spec (inChuffing s) 1) as [Hc | Hc];
    destruct (Z.eqb_spec (inWhistle s) 1) as [Hw | Hw];
    try specialize (wf_melody0 Hm); try specialize (wf_whistle0 Hw);
    lia.
Qed.

Lemma pending_pass (i : Input) (s s' : State) :
  wellFormed s -> timerReady i -> 0 < pending s -> Pass i s s' ->
  pending s' = pending s - 1 /\
  launchCalls (calls s') = launchCalls (calls s).
Proof.
  intros Hwf [e He] Hpos Hpass.
  destruct Hwf.
  destruct Hpass
    as [Hz | d note Hz Hm Hd Hn Hnz | Hz Hm Hc
        | w c ms Hz Hm Hc Hmod Hw Hp Hms
        | w c ms s3 Hz Hm Hc Hwh Hmod Hw Hp Hms E3].
  - rewrite He. unfold pending, stepsLeft in *.
    destruct s; cbn in *. subst. cbn. split; [lia | reflexivity].
  - specialize (wf_melody0 Hm).
    unfold afterNote, pending, stepsLeft in *.
    destruct s; cbn in *. subst. cbn in *.
    assert (inChuffing0 = 0 /\ inWhistle0 = 0) as [-> ->] by lia.
    destruct (Z.geb_spec (curMelodyNote0 + 1) (tableLength whichMelody0));
      cbn; split; try reflexivity; lia.
  - unfold chuffNextChuff, chuff, pending, stepsLeft in *.
    destruct s; cbn in *. subst. cbn in *. constants.
    assert (inWhistle0 = 0) as -> by lia.
    destruct (_ <? _); cbn;
      rewrite (int16_small (curChuff0 + 1)) by lia;
      destruct (Z.geb_spec (curChuff0 + 1) 15);
      cbn; split; try reflexivity; lia.
  - unfold bump, afterFrame, whistleStep, nextWhistle, whistle,
      pending, stepsLeft in *.
    destruct s; cbn in *. subst. cbn in *.
    destruct (Z.eqb_spec inWhistle0 1) as [-> | Hw0]; [| lia].
    destruct (wf_whistle0 eq_refl) as [Hcw _].
    assert (Hcases : curWhistle0 = 1 \/ curWhistle0 = 2) by lia.
    destruct Hcases as [-> | ->]; cbn;
      destruct (_ >? _); cbn; split; try reflexivity; lia.
  - unfold pending, stepsLeft in Hpos.
    rewrite Hz, Hm, Hc, Hwh in Hpos. cbn in Hpos. lia.
Qed.

Lemma pass_wellFormed (i : Input) (s : State) :
  wellFormed s ->
  exists s', loop i s = Some s' /\ wellFormed s' /\ Pass i s s'.
Proof.
  intros Hwf.
  destruct (loop_wellFormed i s Hwf) as (s1 & E1 & Hwf1 & _).
  destruct (loop_pass i s Hwf) as (s2 & E2 & Hpass).
  rewrite E1 in E2. injection E2 as <-.
  exists s1. auto.
Qed.

Lemma run_to_the_end (inputs : list Input) (s : State) :
  wellFormed s -> Forall timerReady inputs ->
  Z.of_nat (length inputs) = pending s ->
  exists s',
    run inputs s = Some s' /\ wellFormed s' /\ pending s' = 0 /\
    launchCalls (calls s') = launchCalls (calls s).
Proof.
  revert s. induction inputs as [| i rest IH]; intros s Hwf Hready Hlen.
  - exists s. cbn in Hlen. auto.
  - inversion Hready as [| i' rest' Hi Hrest]; subst.
    cbn [length] in Hlen.
    destruct (pass_wellFormed i s Hwf) as (s1 & E1 & Hwf1 & Hpass).
    destruct (pending_pass i s s1 Hwf Hi ltac:(lia) Hpass) as (Hp1 & Hc1).
    destruct (IH s1 Hwf1 Hrest ltac:(lia)) as (s' & E' & Hwf' & Hp' & Hc').
    exists s'. cbn [run]. rewrite E1. cbn [bind].
    repeat (split; [assumption |]). congruence.
Qed.

(** X13.  Every sound comes to its end, and nothing interrupts it.  From a
    reachable state [s], if every pass finds the timer expired, then after
    [pending s] passes -- two for every step the sub-machine that is active
    still has to take, and one more if a tone is sounding; 87 at most -- no
    tone sounds and no sub-machine is active, and no other sound has been
    launched on the way. *)
Theorem sound_runs_to_its_end (s : State) (inputs : list Input) :
  reachable s -> Forall timerReady inputs ->
  Z.of_nat (length inputs) = pending s ->
  pending s <= 87 /\
  exists s',
    run inputs s = Some s' /\
    inMozzi s' = 0 /\ activeCount s' = 0 /\
    soundsLaunched s' = soundsLaunched s.
Proof.
  intros Hr Hready Hlen. pose proof (reachable_wellFormed s Hr) as Hwf.
  split; [apply (pending_range s Hwf) |].
  destruct (run_to_the_end inputs s Hwf Hready Hlen)
    as (s' & E & Hwf' & Hp & Hcalls).
  exists s'. split; [exact E |].
  destruct (pending_range s' Hwf') as [_ Hidle].
  destruct (proj1 Hidle Hp) as [Hz Ha].
  split; [exact Hz |]. split; [exact Ha |].
  unfold soundsLaunched. now rewrite Hcalls.
Qed.

Lemma sound_runs_to_its_end_witness :
  reachable afterSetup /\
  Forall timerReady (repeat quiet 59) /\
  Z.of_nat (length (repeat quiet 59)) = pending afterSetup /\
  pending afterSetup <= 87 /\
  exists s',
    run (repeat quiet 59) afterSetup = Some s' /\
    inMozzi s' = 0 /\ activeCount s' = 0 /\
    soundsLaunched s' = soundsLaunched afterSetup.
Proof.
  assert (Hready : Forall timerReady (repeat quiet 59)).
  { apply Forall_forall. intros i Hi. apply repeat_spec in Hi. subst i.
    exists 0. reflexivity. }
  split; [apply reach_setup; vm_compute; reflexivity |].
  split; [exact Hready |].
  split; [vm_compute; reflexivity |].
  apply (sound_runs_to_its_end afterSetup (repeat quiet 59)).
  - apply reach_setup. vm_compute. reflexivity.
  - exact Hready.
  - vm_compute. reflexivity.
Defined.

(** ** The pass that launches a sound *)

Lemma launch_pass (i : Input) (s s' : State) :
  wellFormed s ->
  inMozzi s = 0 -> inMelody s = 0 -> inChuffing s = 0 ->
  counter s mod FLICKERS_PER_SOUND = 0 ->
  loop i s = Some s' ->
  exists w c ms s3,
    0 <= w < 3 /\ palette w c /\ 10 <= ms <= 99 /\
    launchSound (afterFrame w c ms (stopMozzi s)) = Some s3 /\
    s' = bump s3.
Proof.
  intros Hwf Hz Hm Hc Hmod Hloop.
  destruct (loop_pass i s Hwf) as (s'' & E & Hpass).
  rewrite E in Hloop. injection Hloop as <-.
  destruct Hpass
    as [Hz' | d note Hz' Hm' Hd Hn Hnz | Hz' Hm' Hc'
        | w c ms Hz' Hm' Hc' Hmod' Hw Hp Hms
        | w c ms s3 Hz' Hm' Hc' Hwh Hmod' Hw Hp Hms E3];
    try lia.
  exists w, c, ms, s3. auto.
Qed.

(** X14.  The announcement is spoken inside the pass that launches it.  A
    pass out of a reachable state with the rotation at index 2, nothing
    sounding and the counter at a multiple of 300 draws one frame and then
    says, in this order, X, PRESS, NINE, FIVE, SEVEN, TWO, DEPARTURE, FROM,
    NINE, AND, THREE, FOUR, waits 700 milliseconds, says ALL, ABORT and
    waits 500.  It starts no tone: at its end Mozzi is stopped, no
    sub-machine is active, and the rotation is at index 3. *)
Theorem announcement_within_one_pass (i : Input) (s s' : State) :
  reachable s ->
  whichSound s = 2 ->
  inMozzi s = 0 -> inMelody s = 0 -> inChuffing s = 0 ->
  counter s mod FLICKERS_PER_SOUND = 0 ->
  loop i s = Some s' ->
  inMozzi s' = 0 /\ activeCount s' = 0 /\ mozziRunning s' = false /\
  ledBuiltin s' = false /\ whichSound s' = 3 /\
  exists w c ms,
    history s' =
      history s ++
      [C_delay ms; C_setPixelColor w c; C_show; C_stationAnnouncement]
      ++ map C_sayAWord
           [sp2_X; sp2_PRESS; sp2_NINE; sp2_FIVE; sp2_SEVEN; sp2_TWO;
            sp5_DEPARTURE; sp2_FROM; sp2_NINE; sp2_AND; sp2_THREE; sp2_FOUR]
      ++ [C_delay 700; C_sayAWord sp2_ALL; C_sayAWord sp2_ABORT; C_delay 500].
Proof.
  intros Hr Hws Hz Hm Hc Hmod Hloop.
  pose proof (reachable_wellFormed s Hr) as Hwf.
  assert (Hwh : inWhistle s = 0).
  { destruct (wf_inWhistle _ s Hwf) as [E | E]; [exact E |].
    destruct (wf_whistle _ s Hwf E). lia. }
  destruct (launch_pass i s s' Hwf Hz Hm Hc Hmod Hloop)
    as (w & c & ms & s3 & _ & _ & _ & E3 & ->).
  unfold history, activeCount, active, bump.
  destruct s; cbn in *. subst.
  vm_compute in E3. injection E3 as <-. cbn.
  destruct (_ >? _); cbn; repeat split.
  all: exists w, c, ms; rewrite <- !app_assoc; reflexivity.
Qed.

Lemma beforeAnnouncement_reachable : reachable beforeAnnouncement.
Proof.
  apply runSame_reachable with 743%N quiet afterSetup;
    [exact afterSetup_reachable | vm_compute; reflexivity].
Qed.

Lemma announcement_within_one_pass_witness :
  reachable beforeAnnouncement /\
  whichSound beforeAnnouncement = 2 /\
  inMozzi beforeAnnouncement = 0 /\ inMelody beforeAnnouncement = 0 /\
  inChuffing beforeAnnouncement = 0 /\
  counter beforeAnnouncement mod FLICKERS_PER_SOUND = 0 /\
  loop quiet beforeAnnouncement = Some afterAnnouncement /\
  inMozzi afterAnnouncement = 0 /\ activeCount afterAnnouncement = 0 /\
  mozziRunning afterAnnouncement = false /\
  ledBuiltin afterAnnouncement = false /\ whichSound afterAnnouncement = 3 /\
  exists w c ms,
    history afterAnnouncement =
      history beforeAnnouncement ++
      [C_delay ms; C_setPixelColor w c; C_show; C_stationAnnouncement]
      ++ map C_sayAWord
           [sp2_X; sp2_PRESS; sp2_NINE; sp2_FIVE; sp2_SEVEN; sp2_TWO;
            sp5_DEPARTURE; sp2_FROM; sp2_NINE; sp2_AND; sp2_THREE; sp2_FOUR]
      ++ [C_delay 700; C_sayAWord sp2_ALL; C_sayAWord sp2_ABORT; C_delay 500].
Proof.
  split; [exact beforeAnnouncement_reachable |].
  do 6 (split; [vm_compute; reflexivity |]).
  apply (announcement_within_one_pass quiet beforeAnnouncement
           afterAnnouncement);
    [exact beforeAnnouncement_reachable | vm_compute; reflexivity ..].
Defined.

(** X15.  The melody that is launched follows the rotation index.  A pass
    out of a reachable state that launches at index 0 or 1 starts the
    melody of that number: it plays the first note of that melody's table
    (B4 for the first melody, E5 for the second) for 256 milliseconds,
    leaves the note index at 1 and moves the rotation on by one. *)
Theorem melody_follows_rotation_index (i : Input) (s s' : State) :
  reachable s ->
  whichSound s < 2 ->
  inMozzi s = 0 -> inMelody s = 0 -> inChuffing s = 0 ->
  counter s mod FLICKERS_PER_SOUND = 0 ->
  loop i s = Some s' ->
  inMelody s' = 1 /\ whichMelody s' = whichSound s /\
  curMelodyNote s' = 1 /\ inMozzi s' = 1 /\
  aSinFreq s' = (if whichSound s =? 0 then NOTE_B4 else NOTE_E5) /\
  kDelayMs s' = 256 /\
  whichSound s' = whichSound s + 1.
Proof.
  intros Hr Hws Hz Hm Hc Hmod Hloop.
  pose proof (reachable_wellFormed s Hr) as Hwf.
  pose proof (wf_whichSound _ s Hwf) as Hrange.
  destruct (launch_pass i s s' Hwf Hz Hm Hc Hmod Hloop)
    as (w & c & ms & s3 & _ & _ & _ & E3 & ->).
  assert (Hcases : whichSound s = 0 \/ whichSound s = 1) by lia.
  unfold bump.
  destruct s; cbn in *. subst.
  destruct Hcases as [-> | ->];
    vm_compute in E3; injection E3 as <-; cbn;
    destruct (_ >? _); cbn; repeat split.
Qed.

Lemma beforeSecondMelody_reachable : reachable beforeSecondMelody.
Proof.
  apply runSame_reachable with 358%N quiet afterSetup;
    [exact afterSetup_reachable | vm_compute; reflexivity].
Qed.

Lemma melody_follows_rotation_index_witness :
  reachable beforeSecondMelody /\
  whichSound beforeSecondMelody < 2 /\
  inMozzi beforeSecondMelody = 0 /\ inMelody beforeSecondMelody = 0 /\
  inChuffing beforeSecondMelody = 0 /\
  counter beforeSecondMelody mod FLICKERS_PER_SOUND = 0 /\
  loop quiet beforeSecondMelody = Some secondMelodyLaunched /\
  inMelody secondMelodyLaunched = 1 /\
  whichMelody secondMelodyLaunched = whichSound beforeSecondMelody /\
  curMelodyNote secondMelodyLaunched = 1 /\
  inMozzi secondMelodyLaunched = 1 /\
  aSinFreq secondMelodyLaunched =
    (if whichSound beforeSecondMelody =? 0 then NOTE_B4 else NOTE_E5) /\
  kDelayMs secondMelodyLaunched = 256 /\
  whichSound secondMelodyLaunched = whichSound beforeSecondMelody + 1.
Proof.
  split; [exact beforeSecondMelody_reachable |].
  do 6 (split; [vm_compute; reflexivity |]).
  apply (melody_follows_rotation_index quiet beforeSecondMelody
           secondMelodyLaunched);
    [exact beforeSecondMelody_reachable | vm_compute; reflexivity ..].
Defined.

(** ** A melody from its first note to its last *)

Lemma firstn_snoc {A : Type} (l : list A) (n : nat) (x : A) :
  nth_error l n = Some x -> firstn (S n) l = firstn n l ++ [x].
Proof.
  revert n. induction l as [| h t IH]; intros [| n] H; cbn in *;
    try discriminate.
  - now injection H as ->.
  - f_equal. now apply IH.
Qed.

Lemma nth_error_combine {A B : Type} (a : list A) (b : list B) (n : nat)
    (x : A) (y : B) :
  nth_error a n = Some x -> nth_error b n = Some y ->
  nth_error (combine a b) n = Some (x, y).
Proof.
  revert b n. induction a as [| h t IH]; intros [| hb tb] [| n] Ha Hb;
    cbn in *; try discriminate.
  - now injection Ha as ->; injection Hb as ->.
  - now apply IH.
Qed.

Lemma notesOf_at (m i d note : Z) :
  0 <= i ->
  aget (tableDurations m) i = Some d -> aget (tableNotes m) i = Some note ->
  nth_error (notesOf m) (Z.to_nat i)
  = Some (C_playNote note (spec_playbackLength d)).
Proof.
  intros Hi Hd Hn. unfold aget in *.
  destruct (Z.ltb_spec i 0); [lia |].
  unfold notesOf.
  rewrite nth_error_map, (nth_error_combine _ _ _ note d Hn Hd).
  reflexivity.
Qed.

Lemma notesOf_length (m : Z) : Z.of_nat (length (notesOf m)) = tableLength m.
Proof.
  unfold notesOf, tableNotes, tableDurations, tableLength.
  destruct (m =? 0); reflexivity.
Qed.

Lemma tables_by_zero_test (m m' : Z) :
  (m =? 0) = (m' =? 0) ->
  tableLength m = tableLength m' /\ notesOf m = notesOf m'.
Proof.
  intros H. unfold notesOf, tableNotes, tableDurations, tableLength.
  rewrite H. split; reflexivity.
Qed.

Lemma melodyReset_choice (s : State) :
  (whichMelody (melodyReset s) =? 0) = (whichSound s =? 0) /\
  calls (melodyReset s) = C_startMelody :: calls s.
Proof.
  unfold melodyReset. destruct s; cbn.
  destruct (Z.gtb_spec whichSound0 0) as [Hpos | Hle]; cbn;
    split; try reflexivity.
  destruct (Z.eqb_spec whichSound0 0); [lia | reflexivity].
Qed.

Lemma melodyAfter_calls (s : State) (k : nat) :
  Z.of_nat k + 1 <= tableLength (whichSound s) ->
  exists s',
    melodyAfter k s = Some s' /\
    (whichMelody s' =? 0) = (whichSound s =? 0) /\
    calls s' =
      rev (firstn (S k) (notesOf (whichSound s))) ++ C_startMelody :: calls s /\
    (Z.of_nat k + 1 < tableLength (whichSound s) ->
     curMelodyNote s' = Z.of_nat k + 1).
Proof.
  induction k as [| k IH]; intros Hk.
  - cbn [melodyAfter]. rewrite startMelody_unfold.
    destruct (melodyReset_fields s) as (_ & Hcur & Htab).
    destruct (melodyReset_choice s) as (Hch & Hcalls).
    destruct (tables_by_zero_test _ _ Hch) as (_ & Hnotes).
    destruct (playNextNoteInMelody_inside (melodyReset s))
      as (d & note & Hd & Hn & _ & ->); [lia |].
    eexists. split; [reflexivity |].
    destruct (afterNote_fields note (spec_playbackLength d) (melodyReset s))
      as (_ & Hc & _).
    destruct (afterNote_silent note (spec_playbackLength d) (melodyReset s))
      as (_ & -> & _ & _ & ->).
    rewrite Hc, Hcur, Htab, Hcalls.
    rewrite Hcur in Hd, Hn.
    pose proof (notesOf_at _ 0 d note ltac:(lia) Hd Hn) as Hat.
    rewrite Hnotes in Hat.
    rewrite (firstn_snoc _ 0 _ Hat). cbn [firstn app rev].
    split; [exact Hch |]. split; [reflexivity |].
    intros Hlt. destruct (Z.geb_spec (0 + 1) (tableLength (whichSound s)));
      lia.
  - destruct IH as (s1 & E1 & Hch & Hcalls & Hcur); [lia |].
    specialize (Hcur ltac:(lia)).
    destruct (tables_by_zero_test _ _ Hch) as (Htab & Hnotes).
    cbn [melodyAfter]. rewrite E1. cbn [bind].
    destruct (playNextNoteInMelody_inside s1)
      as (d & note & Hd & Hn & _ & ->); [lia |].
    eexists. split; [reflexivity |].
    destruct (afterNote_fields note (spec_playbackLength d) s1)
      as (_ & Hc & _).
    destruct (afterNote_silent note (spec_playbackLength d) s1)
      as (_ & -> & _ & _ & ->).
    rewrite Hc, Hcur, Htab, Hcalls.
    rewrite Hcur in Hd, Hn.
    pose proof (notesOf_at _ (Z.of_nat k + 1) d note ltac:(lia) Hd Hn) as Hat.
    rewrite Hnotes in Hat.
    replace (Z.to_nat (Z.of_nat k + 1)) with (S k) in Hat by lia.
    rewrite (firstn_snoc _ (S k) _ Hat).
    rewrite rev_app_distr. cbn [rev app].
    split; [exact Hch |]. split; [reflexivity |].
    intros Hlt.
    destruct (Z.geb_spec (Z.of_nat k + 1 + 1) (tableLength (whichSound s)));
      lia.
Qed.

(** X16.  A melody is played from the first entry of its table to the
    last, every entry once and in order: from any state, the launch and
    the steps that follow it up to the one that ends the melody succeed
    and call [playNote] with the pitch and the converted length of entry
    0, 1, ... of the table the launch chose (the first melody's for
    [whichSound == 0], the second's otherwise), and nothing else. *)
Theorem melody_plays_whole_table (s : State) :
  exists s',
    melodyAfter (Z.to_nat (tableLength (whichSound s)) - 1) s = Some s' /\
    inMelody s' = 0 /\
    history s' = history s ++ C_startMelody :: notesOf (whichSound s).
Proof.
  pose proof (tableLength_range (whichSound s)) as Hlen.
  set (L := tableLength (whichSound s)) in *.
  destruct (melodyAfter_calls s (Z.to_nat L - 1))
    as (s' & E & _ & Hcalls & _); [fold L; lia |].
  destruct (melodyAfter_progress s (Z.to_nat L - 1))
    as (s'' & E' & _ & _ & Hend); [fold L; lia |].
  rewrite E in E'. injection E' as <-.
  exists s'. split; [exact E |].
  split; [apply Hend; fold L; lia |].
  unfold history. rewrite Hcalls.
  replace (S (Z.to_nat L - 1)) with (length (notesOf (whichSound s))).
  - rewrite firstn_all, rev_app_distr, rev_involutive.
    cbn [rev app]. now rewrite <- app_assoc.
  - pose proof (notesOf_length (whichSound s)). fold L in H. lia.
Qed.

(** ** C4: the rotation, launch by launch *)

#[local] Arguments framesToLaunch : simpl never.

Lemma framesToLaunch_range (c : Z) :
  0 <= c <= 32000 ->
  0 <= framesToLaunch c <= 299 /\
  (framesToLaunch c = 0 <-> c mod FLICKERS_PER_SOUND = 0).
Proof.
  intros Hc. unfold framesToLaunch. constants.
  destruct (Z.eqb_spec (c mod 300) 0); [lia |].
  destruct (Z.gtb_spec c 31800); lia.
Qed.

Lemma framesToLaunch_step (c : Z) :
  0 <= c <= 32000 -> c mod FLICKERS_PER_SOUND <> 0 ->
  framesToLaunch ((c + 1) mod 32001) = framesToLaunch c - 1.
Proof.
  intros Hc Hmod. unfold framesToLaunch in *. constants.
  destruct (Z.eq_dec c 32000) as [-> | Hne]; [reflexivity |].
  rewrite (Z.mod_small (c + 1)) by lia.
  destruct (Z.eqb_spec (c mod 300) 0); [lia |].
  destruct (Z.eqb_spec ((c + 1) mod 300) 0);
    destruct (Z.gtb_spec c 31800);
    destruct (Z.gtb_spec (c + 1) 31800); lia.
Qed.

(** A pass while a sound is under way leaves the rotation where it is,
    and the counter on its way to where the sound will leave it. *)
Lemma sounding_pass (i : Input) (s s' : State) :
  wellFormed s -> timerReady i -> 0 < pending s -> Pass i s s' ->
  counterAtIdle s' = counterAtIdle s /\ whichSound s' = whichSound s.
Proof.
  intros Hwf [e He] Hpos Hpass.
  destruct Hwf.
  destruct Hpass
    as [Hz | d note Hz Hm Hd Hn Hnz | Hz Hm Hc
        | w c ms Hz Hm Hc Hmod Hw Hp Hms
        | w c ms s3 Hz Hm Hc Hwh Hmod Hw Hp Hms E3].
  - rewrite He. unfold counterAtIdle.
    destruct s; cbn in *. subst. split; reflexivity.
  - unfold afterNote, counterAtIdle in *.
    destruct s; cbn in *. subst. cbn in *.
    assert (inChuffing0 = 0 /\ inWhistle0 = 0) as [-> ->] by lia.
    destruct (_ >=? _); cbn; split; reflexivity.
  - unfold chuffNextChuff, chuff, counterAtIdle in *.
    destruct s; cbn in *. subst. cbn in *. constants.
    assert (inWhistle0 = 0) as -> by lia.
    destruct (_ <? _); cbn;
      rewrite (int16_small (curChuff0 + 1)) by lia;
      destruct (Z.geb_spec (curChuff0 + 1) 15);
      cbn; split; reflexivity.
  - unfold bump, afterFrame, whistleStep, nextWhistle, whistle,
      counterAtIdle, pending, stepsLeft in *.
    destruct s; cbn in *. subst. cbn in *.
    destruct (Z.eqb_spec inWhistle0 1) as [-> | Hw0]; [| lia].
    destruct (wf_whistle0 eq_refl) as [Hcw Hcnt]. constants.
    assert (Hcases : curWhistle0 = 1 \/ curWhistle0 = 2) by lia.
    destruct Hcases as [-> | ->]; cbn;
      rewrite (uint32_small (counter0 + 1)) by lia;
      (destruct (Z.gtb_spec (counter0 + 1) 32000); [lia |]);
      cbn; split; try reflexivity; lia.
  - unfold pending, stepsLeft in Hpos.
    rewrite Hz, Hm, Hc, Hwh in Hpos. cbn in Hpos. lia.
Qed.

(** A pass with nothing under way and the counter off the multiples of
    300 draws a frame and moves the counter on. *)
Lemma idle_pass (i : Input) (s s' : State) :
  wellFormed s -> pending s = 0 ->
  counter s mod FLICKERS_PER_SOUND <> 0 -> Pass i s s' ->
  pending s' = 0 /\ counterAtIdle s' = (counter s + 1) mod 32001 /\
  launchCalls (calls s') = launchCalls (calls s) /\
  whichSound s' = whichSound s.
Proof.
  intros Hwf Hp0 Hmod Hpass.
  destruct (pending_range s Hwf) as [_ Hidle].
  destruct (proj1 Hidle Hp0) as [Hz0 Ha0].
  destruct Hwf.
  assert (inMelody s = 0 /\ inChuffing s = 0 /\ inWhistle s = 0)
    as (Hm0 & Hc0 & Hw0).
  { unfold activeCount, active in Ha0.
    destruct (Z.eqb_spec (inMelody s) 1);
      destruct (Z.eqb_spec (inChuffing s) 1);
      destruct (Z.eqb_spec (inWhistle s) 1); lia. }
  destruct Hpass
    as [Hz | d note Hz Hm Hd Hn Hnz | Hz Hm Hc
        | w c ms Hz Hm Hc Hmod' Hw Hp Hms
        | w c ms s3 Hz Hm Hc Hwh Hmod' Hw Hp Hms E3];
    try lia.
  rewrite (whistleStep_idle s Hw0).
  unfold bump, afterFrame, counterAtIdle, pending, stepsLeft in *.
  destruct s; cbn in *. subst. cbn.
  rewrite (uint32_small (counter0 + 1)) by lia.
  destruct (Z.gtb_spec (counter0 + 1) 32000); cbn;
    repeat split; lia.
Qed.

Lemma tillLaunch_range (s : State) :
  wellFormed s ->
  0 <= tillLaunch s <= 386 /\
  (tillLaunch s = 0 <->
   pending s = 0 /\ counter s mod FLICKERS_PER_SOUND = 0).
Proof.
  intros Hwf.
  destruct (pending_range s Hwf) as [Hpr Hidle].
  assert (Hcai : 0 <= counterAtIdle s <= 32000 /\
                 (pending s = 0 -> counterAtIdle s = counter s)).
  { destruct Hwf. unfold counterAtIdle, pending, stepsLeft in *.
    constants.
    destruct (Z.eqb_spec (inWhistle s) 1) as [Hw | Hw].
    - destruct (wf_whistle0 Hw).
      destruct (inMozzi s =? 1); destruct (Z.eqb_spec (inMelody s) 1);
        destruct (Z.eqb_spec (inChuffing s) 1); lia.
    - lia. }
  destruct Hcai as [Hc Hsame].
  destruct (framesToLaunch_range _ Hc) as [Hf Hf0].
  unfold tillLaunch. split; [lia |].
  split.
  - intros H. assert (Hp0 : pending s = 0) by lia.
    split; [exact Hp0 |]. rewrite <- (Hsame Hp0). apply Hf0. lia.
  - intros [Hp0 Hmod]. rewrite Hp0, (Hsame Hp0).
    rewrite <- (Hsame Hp0) in Hmod. apply Hf0 in Hmod.
    rewrite <- (Hsame Hp0). lia.
Qed.

(** Every pass before the launch is one pass less to it. *)
Lemma till_pass (i : Input) (s s' : State) :
  wellFormed s -> timerReady i -> 0 < tillLaunch s -> Pass i s s' ->
  tillLaunch s' = tillLaunch s - 1 /\
  launchCalls (calls s') = launchCalls (calls s) /\
  whichSound s' = whichSound s.
Proof.
  intros Hwf Hi Hpos Hpass.
  destruct (pending_range s Hwf) as [Hpr Hidle].
  destruct (tillLaunch_range s Hwf) as [_ Hzero].
  destruct (Z.eq_dec (pending s) 0) as [Hp0 | Hp0].
  - assert (Hmod : counter s mod FLICKERS_PER_SOUND <> 0).
    { intros Hmod. apply (conj Hp0) in Hmod. apply Hzero in Hmod. lia. }
    destruct (idle_pass i s s' Hwf Hp0 Hmod Hpass)
      as (Hp' & Hc' & Hcalls & Hws).
    split; [| split; assumption].
    unfold tillLaunch in *. rewrite Hp', Hc', Hp0.
    assert (Hsame : counterAtIdle s = counter s).
    { destruct (proj1 Hidle Hp0) as [_ Ha0]. destruct Hwf.
      unfold counterAtIdle, activeCount, active in *.
      destruct (Z.eqb_spec (inMelody s) 1);
        destruct (Z.eqb_spec (inChuffing s) 1);
        destruct (Z.eqb_spec (inWhistle s) 1); lia. }
    rewrite Hsame.
    rewrite framesToLaunch_step; [lia | apply (wf_counter _ s Hwf) | exact Hmod].
  - destruct (pending_pass i s s' Hwf Hi ltac:(lia) Hpass) as (Hp' & Hcalls).
    destruct (sounding_pass i s s' Hwf Hi ltac:(lia) Hpass) as (Hc' & Hws).
    split; [| split; assumption].
    unfold tillLaunch. rewrite Hp', Hc'. lia.
Qed.

Lemma run_till_launch (inputs : list Input) (s : State) :
  wellFormed s -> Forall timerReady inputs ->
  Z.of_nat (length inputs) = tillLaunch s ->
  exists s',
    run inputs s = Some s' /\ wellFormed s' /\ tillLaunch s' = 0 /\
    launchCalls (calls s') = launchCalls (calls s) /\
    whichSound s' = whichSound s.
Proof.
  revert s. induction inputs as [| i rest IH]; intros s Hwf Hready Hlen.
  - exists s. cbn in Hlen. auto.
  - inversion Hready as [| i' rest' Hi Hrest]; subst.
    cbn [length] in Hlen.
    destruct (pass_wellFormed i s Hwf) as (s1 & E1 & Hwf1 & Hpass).
    destruct (till_pass i s s1 Hwf Hi ltac:(lia) Hpass) as (Hp1 & Hc1 & Hw1).
    destruct (IH s1 Hwf1 Hrest ltac:(lia))
      as (s' & E' & Hwf' & Hp' & Hc' & Hw').
    exists s'. cbn [run]. rewrite E1. cbn [bind].
    repeat (split; [assumption |]). split; congruence.
Qed.

(** The pass that finds nothing under way and the counter at a multiple
    of 300 launches the sound at the index of the rotation and moves the
    index on. *)
Lemma launch_at_index (i : Input) (s : State) :
  wellFormed s -> tillLaunch s = 0 ->
  exists s',
    loop i s = Some s' /\ wellFormed s' /\
    launchCalls (calls s') = soundAt (whichSound s) :: launchCalls (calls s) /\
    whichSound s' = nextIndex (whichSound s).
Proof.
  intros Hwf Hzero.
  destruct (tillLaunch_range s Hwf) as [_ Hiff].
  destruct (proj1 Hiff Hzero) as [Hp0 Hmod].
  destruct (pending_range s Hwf) as [_ Hidle].
  destruct (proj1 Hidle Hp0) as [Hz0 Ha0].
  destruct (loop_wellFormed i s Hwf) as (s' & E & Hwf' & Heff).
  exists s'. split; [exact E |]. split; [exact Hwf' |].
  destruct Heff as [(Hno & _) | (_ & _ & _ & _ & _ & Hws & Hcalls)];
    [| split; assumption].
  exfalso. apply Hno. destruct Hwf.
  unfold activeCount, active in Ha0.
  destruct (Z.eqb_spec (inMelody s) 1);
    destruct (Z.eqb_spec (inChuffing s) 1);
    destruct (Z.eqb_spec (inWhistle s) 1); repeat split; lia.
Qed.

Lemma run_app (a b : list Input) (s : State) :
  run (a ++ b) s = (s' <- run a s ;; run b s').
Proof.
  revert s. induction a as [| i a IH]; intros s; [reflexivity |].
  cbn [app run]. destruct (loop i s) as [s1 |]; cbn [bind]; [apply IH |].
  reflexivity.
Qed.

Lemma map_seq_from (f : nat -> Input) (n a : nat) :
  map f (seq a n) = map (fun k => f (a + k)%nat) (seq 0 n).
Proof.
  rewrite <- (Nat.add_0_r a) at 1. generalize 0%nat as b.
  induction n as [| n IH]; intros b; [reflexivity |].
  cbn [seq map]. f_equal.
  rewrite <- IH. now rewrite Nat.add_succ_r.
Qed.

Lemma ready_inputs (f : nat -> Input) (n : nat) :
  (forall k, timerReady (f k)) -> Forall timerReady (map f (seq 0 n)).
Proof.
  intros Hf. apply Forall_forall. intros i Hi.
  apply in_map_iff in Hi. destruct Hi as (k & <- & _). apply Hf.
Qed.

(** With the timer expired at every pass, the next sound is launched
    within 387 passes, and it is the sound at the index. *)
Lemma next_launch (f : nat -> Input) (s : State) :
  wellFormed s -> (forall k, timerReady (f k)) ->
  exists n s',
    (n <= 387)%nat /\
    run (map f (seq 0 n)) s = Some s' /\ wellFormed s' /\
    launchCalls (calls s') = soundAt (whichSound s) :: launchCalls (calls s) /\
    whichSound s' = nextIndex (whichSound s).
Proof.
  intros Hwf Hf.
  destruct (tillLaunch_range s Hwf) as [Hrange _].
  set (n := Z.to_nat (tillLaunch s)).
  destruct (run_till_launch (map f (seq 0 n)) s Hwf (ready_inputs f n Hf))
    as (s1 & E1 & Hwf1 & Hzero & Hcalls & Hws).
  { rewrite length_map, length_seq. unfold n. lia. }
  destruct (launch_at_index (f n) s1 Hwf1 Hzero)
    as (s' & E' & Hwf' & Hcalls' & Hws').
  exists (S n), s'. split; [unfold n; lia |].
  split.
  { rewrite seq_S, map_app, run_app, E1. cbn [bind Nat.add map run].
    rewrite E'. reflexivity. }
  split; [exact Hwf' |]. split; congruence.
Qed.

Lemma next_launches (m : nat) (f : nat -> Input) (s : State) :
  wellFormed s -> (forall k, timerReady (f k)) ->
  exists n s',
    (n <= 387 * m)%nat /\
    run (map f (seq 0 n)) s = Some s' /\ wellFormed s' /\
    soundsLaunched s' = soundsLaunched s ++ rotationFrom (whichSound s) m.
Proof.
  revert f s. induction m as [| m IH]; intros f s Hwf Hf.
  - exists 0%nat, s. split; [lia |]. split; [reflexivity |].
    split; [exact Hwf |]. cbn. now rewrite app_nil_r.
  - destruct (next_launch f s Hwf Hf)
      as (n1 & s1 & Hn1 & E1 & Hwf1 & Hcalls1 & Hws1).
    destruct (IH (fun k => f (n1 + k)%nat) s1 Hwf1 (fun k => Hf _))
      as (n2 & s2 & Hn2 & E2 & Hwf2 & Hl2).
    exists (n1 + n2)%nat, s2. split; [lia |].
    split.
    { rewrite seq_app, map_app, run_app, E1. cbn [bind Nat.add].
      now rewrite map_seq_from. }
    split; [exact Hwf2 |].
    rewrite Hl2, Hws1. unfold soundsLaunched at 1. rewrite Hcalls1.
    cbn [rev]. apply rotationFrom_snoc.
Qed.

(** C4, amended.  From a reachable state the rotation index [whichSound]
    decides every launch to come.  If every pass finds the timer expired,
    [loop] launches [m] further sounds within 387 passes each, for every
    [m], and they are the rotation from the index the state holds; over
    any passes whatever, what [loop] launches is that rotation up to some
    length.  [setup] has launched one melody and leaves the index at 1:
    over the 1676 passes that follow it, with every tone ending at once,
    [loop] launches Melody, Announcement, PulseSequence, ToneSequence,
    Melody.  From index 1 five launches are these; from index 0 they are
    Melody, Melody, Announcement, PulseSequence, ToneSequence.  From
    either index the order repeats after five launches. *)
Theorem rotation_order (s : State) (f : nat -> Input) (m : nat) :
  reachable s -> (forall k, timerReady (f k)) ->
  (exists n s',
      (n <= 387 * m)%nat /\
      run (map f (seq 0 n)) s = Some s' /\
      soundsLaunched s' = soundsLaunched s ++ rotationFrom (whichSound s) m) /\
  (forall inputs s',
      run inputs s = Some s' ->
      exists k,
        soundsLaunched s' = soundsLaunched s ++ rotationFrom (whichSound s) k) /\
  (forall k,
      rotationFrom (whichSound s) (5 + k)
      = rotationFrom (whichSound s) 5 ++ rotationFrom (whichSound s) k) /\
  soundsLaunched afterSetup = [Melody] /\
  whichSound afterSetup = 1 /\
  option_map soundsLaunched (runSame 1676 quiet afterSetup)
  = Some [Melody;
          Melody; Announcement; PulseSequence; ToneSequence; Melody] /\
  rotationFrom 1 5 =
    [Melody; Announcement; PulseSequence; ToneSequence; Melody] /\
  rotationFrom 0 5 =
    [Melody; Melody; Announcement; PulseSequence; ToneSequence].
Proof.
  intros Hr Hf. pose proof (reachable_wellFormed s Hr) as Hwf.
  split.
  { destruct (next_launches m f s Hwf Hf) as (n & s' & Hn & E & _ & Hl).
    exists n, s'. auto. }
  split; [intros inputs s' Hrun; now apply run_rotation with inputs |].
  split; [intros k; apply rotationFrom_period; exact (wf_whichSound _ s Hwf) |].
  split; [vm_compute; reflexivity |].
  split; [vm_compute; reflexivity |].
  split; [exact first_launches_after_setup |].
  split; reflexivity.
Qed.

Lemma rotation_order_witness :
  reachable afterSetup /\
  (forall k : nat, timerReady ((fun _ => quiet) k)) /\
  (exists n s',
      (n <= 387 * 5)%nat /\
      run (map (fun _ => quiet) (seq 0 n)) afterSetup = Some s' /\
      soundsLaunched s'
      = soundsLaunched afterSetup ++ rotationFrom (whichSound afterSetup) 5) /\
  (forall inputs s',
      run inputs afterSetup = Some s' ->
      exists k,
        soundsLaunched s'
        = soundsLaunched afterSetup ++ rotationFrom (whichSound afterSetup) k) /\
  (forall k,
      rotationFrom (whichSound afterSetup) (5 + k)
      = rotationFrom (whichSound afterSetup) 5
        ++ rotationFrom (whichSound afterSetup) k) /\
  soundsLaunched afterSetup = [Melody] /\
  whichSound afterSetup = 1 /\
  option_map soundsLaunched (runSame 1676 quiet afterSetup)
  = Some [Melody;
          Melody; Announcement; PulseSequence; ToneSequence; Melody] /\
  rotationFrom 1 5 =
    [Melody; Announcement; PulseSequence; ToneSequence; Melody] /\
  rotationFrom 0 5 =
    [Melody; Melody; Announcement; PulseSequence; ToneSequence].
Proof.
  assert (Hready : forall k : nat, timerReady ((fun _ => quiet) k)).
  { intros k. exists 0. reflexivity. }
  split; [apply reach_setup; vm_compute; reflexivity |].
  split; [exact Hready |].
  apply (rotation_order afterSetup (fun _ => quiet) 5).
  - apply reach_setup. vm_compute. reflexivity.
  - exact Hready.
Defined.
